(** * s5cmd worker pool (worker.go): a shallow embedding

    The file [worker.go] implements a fixed-size pool of goroutines that
    drain an unbuffered channel of job chains.  Each goroutine is embedded
    as a deterministic transition function over its control points (the
    places where [runWorker] blocks); what the environment decides -- the
    outcome of [job.Run], which case of a [select] fires -- is the input of
    a transition.  The pool is the interleaving of its workers with the
    feeding goroutine ([Run] or [RunCmd]). *)

From Stdlib Require Import ZArith Lia Bool.
From stdpp Require Import base numbers list strings.

Local Open Scope Z_scope.

(** ** package time *)

(** [time.Duration] is an [int64] count of nanoseconds. *)
Definition Duration := Z.
Definition Second : Duration := 1000000000.
Definition Minute : Duration := 60 * Second.

(** ** package backoff *)

Module backoff.

(** Modelled from the spec: the backoff object of lines 83-87 and 103 comes
    from the third-party package github.com/cenkalti/backoff, which is not
    among the sources.  The spec describes it as a state with an initial
    interval, a maximum interval, a multiplier and a current interval; on a
    retryable failure the current interval is multiplied, capped at the
    maximum, and a reset brings it back to the initial interval.  The
    package's jitter and its elapsed-time limit are not part of that
    description and are not modelled. *)
Record ExponentialBackOff := mkExponentialBackOff {
  InitialInterval : Duration;
  MaxInterval : Duration;
  Multiplier : Z;
  currentInterval : Duration
}.

Definition Reset (b : ExponentialBackOff) : ExponentialBackOff :=
  {| InitialInterval := InitialInterval b;
     MaxInterval := MaxInterval b;
     Multiplier := Multiplier b;
     currentInterval := InitialInterval b |}.

(** Returns the interval to sleep for and the object with its current
    interval advanced. *)
Definition NextBackOff (b : ExponentialBackOff) : Duration * ExponentialBackOff :=
  (currentInterval b,
   {| InitialInterval := InitialInterval b;
      MaxInterval := MaxInterval b;
      Multiplier := Multiplier b;
      currentInterval := Z.min (currentInterval b * Multiplier b) (MaxInterval b) |}).

End backoff.

(** ** Statistics *)

(** The two counters [worker.go] increments. *)
Inductive StatType := STATS_RETRYOP | STATS_FAIL.

(** Modelled from the spec: the statistics sink ([Stats] is declared in
    another file) is a set of tallies with an increment operation keyed by
    the outcome kind. *)
Record Stats := mkStats { retryops : Z; fails : Z }.

Definition Increment (s : Stats) (t : StatType) : Stats :=
  match t with
  | STATS_RETRYOP => {| retryops := retryops s + 1; fails := fails s |}
  | STATS_FAIL => {| retryops := retryops s; fails := fails s + 1 |}
  end.

(** ** Pool parameters (lines 17-21) *)

Record WorkerPoolParams := mkWorkerPoolParams {
  NumWorkers : Z;
  ChunkSizeBytes : Z;
  Retries : Z
}.

(** ** Per-worker resources (lines 33-40)

    [s3.New], [s3manager.NewDownloader] and [s3manager.NewUploader] each
    return a pointer to a newly allocated object; an object is identified
    by its address.  The fields [ctx], [poolParams] and [stats] of the
    source alias the pool's own and are not repeated here. *)
Record Uploader := mkUploader { ul_addr : nat; PartSize : Z }.

Record WorkerParams := mkWorkerParams {
  s3svc : nat;
  s3dl : nat;
  s3ul : Uploader
}.

Definition handles (wp : WorkerParams) : list nat :=
  [s3svc wp; s3dl wp; ul_addr (s3ul wp)].

(** How a call ends. *)
Inductive Outcome (A : Type) :=
| Returns (a : A)
| Panics
| Exits.          (* log.Fatal *)
Arguments Returns {A} a.
Arguments Panics {A}.
Arguments Exits {A}.

(** ** What [worker.go] takes from elsewhere

    The types and functions of the package's other files and of the AWS
    SDK that the code calls but does not define, and the parameters the
    pool is created with ([p.params], which nothing changes). *)
Class Env := {
  error : Type;
  Job : Type;                              (* a non-nil [*Job] *)
  Session : Type;                          (* [*session.Session] *)
  IsRatelimitError : error -> bool;
  CleanupError : error -> string;
  successCommand : Job -> option Job;      (* [None] is the nil pointer *)
  failCommand : Job -> option Job;
  ParseJob : string -> option Job + error;
  params : WorkerPoolParams
}.

Section Model.

Context {env : Env}.

(** ** The log *)

Inductive LogLine :=
| LogRatelimit (job : Job) (sleepTime : Duration)  (* line 104 *)
| LogErr (job : Job) (msg : string)                (* line 114 *)
| LogOK (job : Job)                                (* line 118 *)
| LogParseErr (line : string) (err : error)        (* line 136 *)
| LogReadErr.                                      (* line 186 *)

(** ** State shared by all goroutines

    The counters, the logger, the pool's WaitGroup and the allocator the
    client constructors draw fresh addresses from. *)
Record Shared := mkShared {
  stats : Stats;
  log : list LogLine;
  wg : Z;
  next_addr : nat
}.

Definition Printf (σ : Shared) (ln : LogLine) : Shared :=
  {| stats := stats σ; log := log σ ++ [ln]; wg := wg σ; next_addr := next_addr σ |}.

Definition stats_Increment (σ : Shared) (t : StatType) : Shared :=
  {| stats := Increment (stats σ) t; log := log σ; wg := wg σ; next_addr := next_addr σ |}.

Definition wg_Add (σ : Shared) (n : Z) : Shared :=
  {| stats := stats σ; log := log σ; wg := wg σ + n; next_addr := next_addr σ |}.

Definition wg_Done (σ : Shared) : Shared := wg_Add σ (-1).

(** Modelled from the spec: the construction of a remote-storage client is
    opaque and is invoked by each worker for itself; as every [New...] of
    Go it returns a pointer to an object of its own.  This allocates one
    object: its address, and the allocator moved on. *)
Definition new_object (σ : Shared) : nat * Shared :=
  (next_addr σ,
   {| stats := stats σ; log := log σ; wg := wg σ; next_addr := S (next_addr σ) |}).

(** ** One worker (lines 68-131) *)

(** The local variables of [runWorker]. *)
Record Locals := mkLocals {
  wp : WorkerParams;
  bkf : backoff.ExponentialBackOff;
  run : bool;
  tries : Z
}.

Definition set_tries (l : Locals) (n : Z) : Locals :=
  {| wp := wp l; bkf := bkf l; run := run l; tries := n |}.

Definition set_bkf (l : Locals) (b : backoff.ExponentialBackOff) : Locals :=
  {| wp := wp l; bkf := b; run := run l; tries := tries l |}.

Definition set_run (l : Locals) (r : bool) : Locals :=
  {| wp := wp l; bkf := bkf l; run := r; tries := tries l |}.

(** Where a running worker waits. *)
Inductive PC :=
| Idle                                  (* the select of line 91 *)
| Executing (job : Job)                 (* inside job.Run, line 99 *)
| Backoff (job : Job) (err : error) (sleepTime : Duration).   (* the select of line 105 *)

Inductive Worker :=
| Spawned                     (* [go p.runWorker(stats)] issued, nothing run yet *)
| Live (at_ : PC) (l : Locals)
| Terminated.                 (* returned; the deferred wg.Done() has run *)

(** What the environment hands a worker at a control point. *)
Inductive WorkerInput :=
| Start                              (* the goroutine is scheduled: lines 69-89 *)
| Recv (job : option Job)            (* line 92, ok = true *)
| RecvClosed                         (* line 92, ok = false *)
| CtxDone                            (* <-p.ctx.Done(), line 109 or 124 *)
| RunReturn (err : option error)     (* job.Run(&wp) returned, line 99 *)
| TimerFired.                        (* <-time.After(sleepTime), line 106 *)

(** Lines 83-87. *)
Definition worker_bkf : backoff.ExponentialBackOff :=
  backoff.Reset
    {| backoff.InitialInterval := Second;
       backoff.MaxInterval := Minute;
       backoff.Multiplier := 2;
       backoff.currentInterval := 0 |}.

(** Lines 69-89: the worker builds its own clients and backoff object.
    Each of the three constructors is passed the pool's one session; what a
    client keeps of it is the SDK's business. *)
Definition start_worker (σ : Shared) : Shared * Worker :=
  let '(svc, σ1) := new_object σ in
  let '(dl, σ2) := new_object σ1 in
  let '(ul, σ3) := new_object σ2 in
  (σ3,
   Live Idle
     {| wp := {| s3svc := svc; s3dl := dl;
                 s3ul := {| ul_addr := ul; PartSize := ChunkSizeBytes params |} |};
        bkf := worker_bkf;
        run := true;
        tries := 0 |}).

(** The loop tests: [for job != nil] (line 98) and, once the chain is
    over, [for run] (line 90); leaving the outer loop returns from
    [runWorker], which runs the deferred [p.wg.Done()]. *)
Definition loop_head (σ : Shared) (l : Locals) (job : option Job) : Shared * Worker :=
  match job with
  | Some j => (σ, Live (Executing j) l)
  | None => if run l then (σ, Live Idle l) else (wg_Done σ, Terminated)
  end.

(** Lines 121-123: the end of the inner loop's body. *)
Definition next_node (σ : Shared) (l : Locals) (job : option Job) : Shared * Worker :=
  loop_head σ (set_bkf (set_tries l 0) (backoff.Reset (bkf l))) job.

(** Lines 114-116, then 121-123. *)
Definition fail_node (σ : Shared) (l : Locals) (job : Job) (err : error) : Shared * Worker :=
  next_node
    (stats_Increment (Printf σ (LogErr job (CleanupError err))) STATS_FAIL)
    l (failCommand job).

(** Line 101. *)
Definition may_retry (l : Locals) (err : error) : bool :=
  IsRatelimitError err && (0 <? Retries params) && (tries l <? Retries params).

Definition wstep (σ : Shared) (w : Worker) (i : WorkerInput) : option (Shared * Worker) :=
  match w, i with
  | Spawned, Start => Some (start_worker σ)
  | Live Idle l, Recv job =>
      (* line 97 *)
      Some (loop_head σ (set_tries l 0) job)
  | Live Idle l, RecvClosed =>
      (* lines 93-96 *)
      Some (loop_head σ (set_run l false) None)
  | Live Idle l, CtxDone =>
      (* lines 124-126 *)
      Some (loop_head σ (set_run l false) None)
  | Live (Executing job) l, RunReturn None =>
      (* lines 118-119 *)
      Some (next_node (Printf σ (LogOK job)) l (successCommand job))
  | Live (Executing job) l, RunReturn (Some err) =>
      if may_retry l err then
        (* lines 102-104 *)
        let '(sleepTime, b) := backoff.NextBackOff (bkf l) in
        Some (Printf σ (LogRatelimit job sleepTime),
              Live (Backoff job err sleepTime) (set_bkf (set_tries l (tries l + 1)) b))
      else Some (fail_node σ l job err)
  | Live (Backoff job err _) l, TimerFired =>
      (* lines 106-108 *)
      Some (stats_Increment σ STATS_RETRYOP, Live (Executing job) l)
  | Live (Backoff job err _) l, CtxDone =>
      (* lines 109-110, then the failure path *)
      Some (fail_node σ (set_run l false) job err)
  | _, _ => None
  end.

Fixpoint wrun (σ : Shared) (w : Worker) (ins : list WorkerInput) : option (Shared * Worker) :=
  match ins with
  | [] => Some (σ, w)
  | i :: ins' =>
      match wstep σ w i with
      | Some (σ', w') => wrun σ' w' ins'
      | None => None
      end
  end.

(** ** package context *)

(** A value stored in a context, with its dynamic type: the cancel function
    of the context, or a value of any other type. *)
Inductive Any :=
| CancelFuncValue
| OtherValue (type_name : string).

(** A context: its key-value lookup ([None] is the nil interface returned
    for a missing key) and whether its Done channel is closed. *)
Record Context := mkContext {
  Value : string -> option Any;
  Done : bool
}.

Definition cancel (c : Context) : Context :=
  {| Value := Value c; Done := true |}.

(** ** The feeding goroutine (lines 133-200) *)

(** Where the caller of [Run] or [RunCmd] stands. *)
Inductive Feeder :=
| FReady                                     (* outside of the pool's methods, nothing called yet *)
| FReadOne                                   (* Run: inside s.ReadOne(), line 176 *)
| FSend (stream : bool) (job : option Job)   (* singleRun: the select of line 141;
                                                [stream] tells Run from RunCmd *)
| FWait (close_after : bool)                 (* inside p.wg.Wait(), line 195 or 153;
                                                [close_after] is [!closed] of line 197 *)
| FReturned                                  (* Run or RunCmd has returned *)
| FPanicked                                  (* close of a closed channel, send on a closed channel *)
| FFatal.                                    (* log.Fatal, line 165 *)

Inductive ReadResult :=
| ReadLine (line : string)
| ReadEOF          (* err == io.EOF *)
| ReadCanceled     (* err == context.Canceled *)
| ReadFailed.      (* any other error *)

Inductive FeederInput :=
| CallRun (filename : string) (opened : bool)   (* [opened]: os.Open returned no error *)
| CallRunCmd (commandLine : string)
| ReadOne (r : ReadResult)                      (* s.ReadOne() returned *)
| SendCanceled                                  (* <-p.ctx.Done(), line 142 *)
| SendOnClosed                                  (* line 144 on a closed channel *)
| WaitReturned.                                 (* p.wg.Wait() returned *)

(** ** The pool and its goroutines

    The fields of [WorkerPool] (lines 23-31): [ctx] is [ctx]; [params] is
    the environment's [params]; [jobQueue] is unbuffered, so all there is to
    know of it is whether it is closed; [wg] and [stats] are in [shared];
    [cancelFunc] is the value found in [ctx].  [workers] are the goroutines
    of line 62, [feeder] is the goroutine calling the pool's methods, and
    [handed] records, for the proofs, every job that went through the
    queue. *)

Record System := mkSystem {
  ctx : Context;
  awsSession : Session;
  jobQueue_closed : bool;
  shared : Shared;
  workers : list Worker;
  feeder : Feeder;
  handed : list (option Job)
}.

Definition set_ctx (s : System) (c : Context) : System :=
  {| ctx := c; awsSession := awsSession s; jobQueue_closed := jobQueue_closed s;
     shared := shared s; workers := workers s; feeder := feeder s; handed := handed s |}.

Definition set_shared (s : System) (σ : Shared) : System :=
  {| ctx := ctx s; awsSession := awsSession s; jobQueue_closed := jobQueue_closed s;
     shared := σ; workers := workers s; feeder := feeder s; handed := handed s |}.

Definition set_workers (s : System) (ws : list Worker) : System :=
  {| ctx := ctx s; awsSession := awsSession s; jobQueue_closed := jobQueue_closed s;
     shared := shared s; workers := ws; feeder := feeder s; handed := handed s |}.

Definition set_feeder (s : System) (f : Feeder) : System :=
  {| ctx := ctx s; awsSession := awsSession s; jobQueue_closed := jobQueue_closed s;
     shared := shared s; workers := workers s; feeder := f; handed := handed s |}.

Definition add_handed (s : System) (job : option Job) : System :=
  {| ctx := ctx s; awsSession := awsSession s; jobQueue_closed := jobQueue_closed s;
     shared := shared s; workers := workers s; feeder := feeder s;
     handed := handed s ++ [job] |}.

(** One round of the loop of lines 60-63. *)
Definition spawn_one (acc : Shared * list Worker) : Shared * list Worker :=
  (wg_Add (fst acc) 1, snd acc ++ [Spawned]).

(** Lines 42-66.  [ses] is what [session.NewSession] returned. *)
Definition NewWorkerPool (ses : Session + error) (c : Context) (st : Stats)
    (lg : list LogLine) (heap : nat) : Outcome System :=
  match ses with
  | inr _ => Exits                                            (* lines 44-46 *)
  | inl ses =>
      match Value c "cancelFunc" with                         (* line 48 *)
      | Some CancelFuncValue =>
          let '(σ, ws) :=
            Nat.iter (Z.to_nat (NumWorkers params)) spawn_one
              ({| stats := st; log := lg; wg := 0; next_addr := heap |}, []) in
          Returns {| ctx := c; awsSession := ses; jobQueue_closed := false;
                     shared := σ; workers := ws; feeder := FReady; handed := [] |}
      | _ => Panics
      end
  end.

(** [close(p.jobQueue)], after which the feeder stands at [k]. *)
Definition close_jobQueue (s : System) (k : Feeder) : System :=
  if jobQueue_closed s then set_feeder s FPanicked
  else {| ctx := ctx s; awsSession := awsSession s; jobQueue_closed := true;
          shared := shared s; workers := workers s; feeder := k; handed := handed s |}.

(** What the caller of [singleRun] does with its result: [Run] assigns it
    to [run] (line 191) and leaves the loop on [false] with [closed] still
    false; [RunCmd] drops it and closes the queue (line 152). *)
Definition after_singleRun (s : System) (stream : bool) (result : bool) : System :=
  if stream then set_feeder s (if result then FReadOne else FWait true)
  else close_jobQueue s (FWait false).

(** Lines 133-140 of [singleRun]; the select of line 141 is [FSend]. *)
Definition singleRun (s : System) (stream : bool) (line : string) : System :=
  match ParseJob line with
  | inr err =>
      after_singleRun
        (set_shared s (stats_Increment (Printf (shared s) (LogParseErr line err)) STATS_FAIL))
        stream true
  | inl job => set_feeder s (FSend stream job)
  end.

Definition fstep (s : System) (i : FeederInput) : option System :=
  match feeder s, i with
  | FReady, CallRun filename opened =>
      (* lines 160-172 *)
      if (String.eqb filename "-" || opened)%bool then Some (set_feeder s FReadOne)
      else Some (set_feeder s FFatal)
  | FReady, CallRunCmd commandLine =>
      (* line 151 *)
      Some (singleRun s false commandLine)
  | FReadOne, ReadOne (ReadLine line) =>
      (* line 191 *)
      Some (singleRun s true line)
  | FReadOne, ReadOne ReadEOF =>
      (* lines 179-184 *)
      Some (close_jobQueue s (FWait false))
  | FReadOne, ReadOne ReadCanceled =>
      (* lines 183-184 *)
      Some (set_feeder s (FWait true))
  | FReadOne, ReadOne ReadFailed =>
      (* lines 186-188 *)
      Some (set_feeder (set_shared s (Printf (shared s) LogReadErr)) (FWait true))
  | FSend stream job, SendCanceled =>
      (* lines 142-143 *)
      if Done (ctx s) then Some (after_singleRun s stream false) else None
  | FSend stream job, SendOnClosed =>
      if jobQueue_closed s then Some (set_feeder s FPanicked) else None
  | FWait close_after, WaitReturned =>
      (* lines 195-199, or line 153 *)
      if wg (shared s) =? 0 then
        Some (if close_after then close_jobQueue s FReturned else set_feeder s FReturned)
      else None
  | _, _ => None
  end.

(** ** Interleaving *)

Inductive Action :=
| Cancel                                   (* somebody calls the context's cancel function *)
| WorkerStep (i : nat) (inp : WorkerInput) (* worker [i] moves on its own *)
| Handoff (i : nat)                        (* the send of line 144 meets worker [i]'s receive *)
| FeederStep (inp : FeederInput).

(** A case of a select can fire only when its channel is ready; a receive
    with [ok = true] needs a sender and is the [Handoff] action. *)
Definition worker_enabled (s : System) (inp : WorkerInput) : bool :=
  match inp with
  | Recv _ => false
  | RecvClosed => jobQueue_closed s
  | CtxDone => Done (ctx s)
  | _ => true
  end.

(** An unrecovered panic or [log.Fatal] ends the process. *)
Definition crashed (s : System) : bool :=
  match feeder s with
  | FPanicked | FFatal => true
  | _ => false
  end.

Definition worker_moves (s : System) (i : nat) (inp : WorkerInput) : option System :=
  match workers s !! i with
  | Some w =>
      match wstep (shared s) w inp with
      | Some (σ', w') => Some (set_workers (set_shared s σ') (<[i := w']> (workers s)))
      | None => None
      end
  | None => None
  end.

Definition sstep (s : System) (a : Action) : option System :=
  if crashed s then None else
  match a with
  | Cancel => Some (set_ctx s (cancel (ctx s)))
  | WorkerStep i inp =>
      if worker_enabled s inp then worker_moves s i inp else None
  | Handoff i =>
      match feeder s with
      | FSend stream job =>
          if jobQueue_closed s then None else
          match worker_moves s i (Recv job) with
          | Some s' => Some (after_singleRun (add_handed s' job) stream true)
          | None => None
          end
      | _ => None
      end
  | FeederStep inp => fstep s inp
  end.

Fixpoint srun (s : System) (acts : list Action) : option System :=
  match acts with
  | [] => Some s
  | a :: acts' =>
      match sstep s a with
      | Some s' => srun s' acts'
      | None => None
      end
  end.

(** ** Reading runs *)

(** The inputs of one failed attempt per error of [es], each followed by a
    full sleep. *)
Definition attempts (es : list error) : list WorkerInput :=
  flat_map (fun e => [RunReturn (Some e); TimerFired]) es.

(** How many times [job.Run] returned in a run. *)
Fixpoint action_runs (ins : list WorkerInput) : nat :=
  match ins with
  | [] => 0
  | RunReturn _ :: ins' => S (action_runs ins')
  | _ :: ins' => action_runs ins'
  end.

(** The worker stands at the head of the chain [next]: inside its first
    node, or, when the chain is empty, back at the outer select when [r]
    (the variable [run]) holds and gone otherwise. *)
Definition at_chain (r : bool) (next : option Job) (w : Worker) : Prop :=
  match next with
  | Some j => exists l, w = Live (Executing j) l /\ run l = r
  | None => if r then exists l, w = Live Idle l /\ run l = true else w = Terminated
  end.

(** The step from [σ] to [σ'] logged [job] as failed and counted it. *)
Definition failure_recorded (σ σ' : Shared) (job : Job) (err : error) : Prop :=
  log σ' = log σ ++ [LogErr job (CleanupError err)] /\
  fails (stats σ') = fails (stats σ) + 1 /\
  retryops (stats σ') = retryops (stats σ).

(** ** Retries of one node *)

Definition advance (b : backoff.ExponentialBackOff) : backoff.ExponentialBackOff :=
  (backoff.NextBackOff b).2.

(** ** The backoff sequence *)

(** The sleep before retry number [k + 1] of a node: one second doubled [k]
    times, capped at one minute. *)
Definition nth_interval (k : nat) : Duration :=
  Z.min (Second * 2 ^ Z.of_nat k) Minute.

(** ** Invariants of one worker *)

(** The backoff state a node starts with. *)
Definition fresh (l : Locals) : Prop :=
  tries l = 0 /\ bkf l = worker_bkf.

(** The backoff object keeps the parameters of lines 84-86, and a worker
    waiting for a job holds it reset. *)
Definition winv (w : Worker) : Prop :=
  match w with
  | Live Idle l => fresh l
  | Live _ l => backoff.Reset (bkf l) = worker_bkf
  | _ => True
  end.

(** The worker has seen the cancellation during a sleep: it is finishing
    its chain and will not serve again. *)
Definition stopping (w : Worker) : Prop :=
  match w with
  | Live (Executing _) l | Live (Backoff _ _ _) l => run l = false
  | Terminated => True
  | _ => False
  end.

(** ** Choosing the continuation *)

(** The node a worker is busy with. *)
Definition node_of (pc : PC) : option Job :=
  match pc with
  | Idle => None
  | Executing j | Backoff j _ _ => Some j
  end.

(** The spec's wording of where a worker stands after a node is resolved:
    in the chosen continuation, or waiting for a job when there is none. *)
Definition continuation_or_idle (next : option Job) (w : Worker) : Prop :=
  match next with
  | Some j => exists l, w = Live (Executing j) l
  | None => exists l, w = Live Idle l
  end.

(** The spec's wording for every node a worker resolves, on every state
    the worker can reach: a logged success leads to the success
    continuation or to idle, a counted failure to the failure continuation
    or to idle. *)
Definition resolution_leads_to_continuation_or_idle : Prop :=
  forall σ0 ins σ pc l job i σ' w',
    wrun σ0 Spawned ins = Some (σ, Live pc l) ->
    node_of pc = Some job ->
    wstep σ (Live pc l) i = Some (σ', w') ->
    (log σ' = log σ ++ [LogOK job] -> continuation_or_idle (successCommand job) w') /\
    (fails (stats σ') = fails (stats σ) + 1 -> continuation_or_idle (failCommand job) w').

(** [run] is only ever cleared by a cancellation. *)
Definition serving (w : Worker) : Prop :=
  match w with
  | Live _ l => run l = true
  | _ => True
  end.

(** ** Invariants of the pool *)

(** What a goroutine contributes to the WaitGroup counter. *)
Definition weight (w : Worker) : Z :=
  match w with
  | Terminated => 0
  | _ => 1
  end.

Fixpoint live_count (ws : list Worker) : Z :=
  match ws with
  | [] => 0
  | w :: ws' => weight w + live_count ws'
  end.

(** The WaitGroup counts the workers that have not returned.  The queue is
    open until the feeder closes it, which it does once: before it waits
    (end of input, or [RunCmd]) or after it has waited; it has returned only
    after seeing the counter at zero. *)
Definition sinv (s : System) : Prop :=
  wg (shared s) = live_count (workers s) /\
  match feeder s with
  | FWait close_after => jobQueue_closed s = negb close_after
  | FReturned => jobQueue_closed s = true /\ wg (shared s) = 0
  | FPanicked => False
  | _ => jobQueue_closed s = false
  end.

(** ** Submitting a job *)



(** ** The workers' clients *)

(** The three clients of a worker are three consecutive allocations made
    before now, and its uploader has the configured part size. *)
Definition own_clients (σ : Shared) (l : Locals) : Prop :=
  s3dl (wp l) = S (s3svc (wp l)) /\
  ul_addr (s3ul (wp l)) = S (S (s3svc (wp l))) /\
  (s3svc (wp l) + 3 <= next_addr σ)%nat /\
  PartSize (s3ul (wp l)) = ChunkSizeBytes params.

(** Two workers' allocations do not overlap. *)
Definition apart (l l' : Locals) : Prop :=
  (s3svc (wp l) + 3 <= s3svc (wp l'))%nat \/ (s3svc (wp l') + 3 <= s3svc (wp l))%nat.

Definition hinv (s : System) : Prop :=
  forall i pc l,
    workers s !! i = Some (Live pc l) ->
    own_clients (shared s) l /\
    forall j pc' l', j <> i -> workers s !! j = Some (Live pc' l') -> apart l l'.

(** ** The cancel function in the context *)

(** The spec's wording of the precondition of line 48: without a cancel
    function under the key, construction panics. *)
Definition panics_without_cancelFunc : Prop :=
  forall ses c st lg heap,
    Value c "cancelFunc" <> Some CancelFuncValue ->
    NewWorkerPool ses c st lg heap = Panics.

(** ** What the pool keeps and never does *)

(** No worker gives up on its own: one that has returned has seen the queue
    closed or the context canceled, and one that has cleared [run] has seen
    the context canceled. *)
Definition stops_only_when_told (s : System) : Prop :=
  forall i w,
    workers s !! i = Some w ->
    match w with
    | Spawned => True
    | Live _ l => run l = false -> Done (ctx s) = true
    | Terminated => jobQueue_closed s = true \/ Done (ctx s) = true
    end.

Definition is_Cancel (a : Action) : Prop :=
  match a with
  | Cancel => True
  | _ => False
  end.

(** [js] are the nodes that follow [j] along the success continuations, up
    to the node that has none. *)
Fixpoint follows_success (j : Job) (js : list Job) : Prop :=
  match js with
  | [] => successCommand j = None
  | j' :: js' => successCommand j = Some j' /\ follows_success j' js'
  end.

(** The job a step of the feeder parses out of a line, if it does. *)
Definition parsed (a : Action) : list (option Job) :=
  match a with
  | FeederStep (ReadOne (ReadLine line)) | FeederStep (CallRunCmd line) =>
      match ParseJob line with
      | inl job => [job]
      | inr _ => []
      end
  | _ => []
  end.

Definition parsed_jobs (acts : list Action) : list (option Job) :=
  flat_map parsed acts.

(** With [js] the jobs parsed so far: all of them went through the queue,
    but for the one the feeder is submitting, or gave up submitting. *)
Definition submitted (js : list (option Job)) (s : System) : Prop :=
  match feeder s with
  | FReady | FReadOne => js = handed s
  | FSend _ job => js = handed s ++ [job]
  | _ => js = handed s \/ exists job, js = handed s ++ [job]
  end.

(** The log lines that come with an increment of the failure counter: the
    lines of 114 and 136, not the line of 186. *)
Definition failure_line (ln : LogLine) : Z :=
  match ln with
  | LogErr _ _ | LogParseErr _ _ => 1
  | _ => 0
  end.

Fixpoint failure_lines (lg : list LogLine) : Z :=
  match lg with
  | [] => 0
  | ln :: lg' => failure_line ln + failure_lines lg'
  end.

(** [k] is [j] or a node reached from [j] along continuations. *)
Inductive in_chain : Job -> Job -> Prop :=
| chain_here j : in_chain j j
| chain_success j j' k : successCommand j = Some j' -> in_chain j' k -> in_chain j k
| chain_fail j j' k : failCommand j = Some j' -> in_chain j' k -> in_chain j k.

(** Every node a worker is busy with belongs to the chain of a job that
    went through the queue. *)
Definition runs_only_submitted (s : System) : Prop :=
  forall i pc l j,
    workers s !! i = Some (Live pc l) ->
    node_of pc = Some j ->
    exists j0, Some j0 ∈ handed s /\ in_chain j0 j.

(** The worker has nothing in hand: it has not started, waits for a job, or
    has returned. *)
Definition at_rest (w : Worker) : Prop :=
  match w with
  | Live (Executing _) _ | Live (Backoff _ _ _) _ => False
  | _ => True
  end.

(** What ends the wait of an idle worker: the closed queue, or else the
    canceled context. *)
Definition stop_input (s : System) : WorkerInput :=
  if jobQueue_closed s then RecvClosed else CtxDone.

(** The steps that make the workers [ws], standing at the indices from [i]
    on and each at rest, return: a worker that has not started starts
    first, and each takes the case [stop] of its select. *)
Fixpoint retire (stop : WorkerInput) (i : nat) (ws : list Worker) : list Action :=
  match ws with
  | [] => []
  | w :: ws' =>
      match w with
      | Spawned => [WorkerStep i Start; WorkerStep i stop]
      | Live _ _ => [WorkerStep i stop]
      | Terminated => []
      end ++ retire stop (S i) ws'
  end.

(** The attempt counter stays within the budget; it is zero while the
    worker waits for a job and positive while it sleeps before a retry. *)
Definition tries_in_budget (w : Worker) : Prop :=
  match w with
  | Live pc l =>
      0 <= tries l <= Z.max 0 (Retries params) /\
      match pc with
      | Idle => tries l = 0
      | Executing _ => True
      | Backoff _ _ _ => 1 <= tries l
      end
  | _ => True
  end.

(** The log lines of line 104, which announce a sleep. *)
Definition ratelimit_line (ln : LogLine) : Z :=
  match ln with
  | LogRatelimit _ _ => 1
  | _ => 0
  end.

Fixpoint ratelimit_lines (lg : list LogLine) : Z :=
  match lg with
  | [] => 0
  | ln :: lg' => ratelimit_line ln + ratelimit_lines lg'
  end.

(** The worker sleeps before a retry, in the select of line 105. *)
Definition asleep (w : Worker) : Z :=
  match w with
  | Live (Backoff _ _ _) _ => 1
  | _ => 0
  end.

Fixpoint sleepers (ws : list Worker) : Z :=
  match ws with
  | [] => 0
  | w :: ws' => asleep w + sleepers ws'
  end.

(** The sleeps announced that are neither counted as a retry (line 107)
    nor still going on. *)
Definition cut_short (s : System) : Z :=
  ratelimit_lines (log (shared s)) - retryops (stats (shared s)) - sleepers (workers s).

End Model.

(** * A concrete pool

    Two workers, a retry budget of 2, and four jobs: job 0 continues with
    job 1 on success and with job 2 on failure; jobs 1, 2 and 3 have no
    continuation.  The only rate-limit error is "SlowDown". *)

Module demo.

#[global] Instance env : Env := {|
  error := string;
  Job := nat;
  Session := unit;
  IsRatelimitError := fun e => String.eqb e "SlowDown";
  CleanupError := fun e => e;
  successCommand := fun j => match j with O => Some 1%nat | _ => None end;
  failCommand := fun j => match j with O => Some 2%nat | _ => None end;
  ParseJob := fun line =>
    if String.eqb line "cp a b" then inl (Some 0%nat)
    else if String.eqb line "ls" then inl (Some 3%nat)
    else inr "unknown command";
  params := {| NumWorkers := 2; ChunkSizeBytes := 5242880; Retries := 2 |}
|}.

(** The jobs and the errors by name: the job of "cp a b" with its two
    continuations, and the job of "ls". *)
Definition cp_job : Job := 0%nat.
Definition cp_then : Job := 1%nat.
Definition cp_else : Job := 2%nat.
Definition ls_job : Job := 3%nat.
Definition slow_down : error := "SlowDown".
Definition no_session : error := "no session".

(** A context as the command line sets it up, and one without the cancel
    function. *)
Definition ctx_with_cancel : Context :=
  {| Value := fun k => if String.eqb k "cancelFunc" then Some CancelFuncValue else None;
     Done := false |}.

Definition ctx_without_cancel : Context :=
  {| Value := fun _ => None; Done := false |}.

Definition no_stats : Stats := {| retryops := 0; fails := 0 |}.

Definition σ0 : Shared :=
  {| stats := no_stats; log := []; wg := 1; next_addr := 0 |}.

(** The locals of the first and of the second worker to start. *)
Definition l0 : Locals :=
  {| wp := {| s3svc := 0; s3dl := 1;
              s3ul := {| ul_addr := 2; PartSize := 5242880 |} |};
     bkf := worker_bkf; run := true; tries := 0 |}.

Definition l1 : Locals :=
  {| wp := {| s3svc := 3; s3dl := 4;
              s3ul := {| ul_addr := 5; PartSize := 5242880 |} |};
     bkf := worker_bkf; run := true; tries := 0 |}.

Definition SlowDown : WorkerInput := RunReturn (Some slow_down).

(** The pool as [NewWorkerPool] returns it. *)
Definition pool : System :=
  {| ctx := ctx_with_cancel; awsSession := tt; jobQueue_closed := false;
     shared := {| stats := no_stats; log := []; wg := 2; next_addr := 0 |};
     workers := [Spawned; Spawned];
     feeder := FReady; handed := [] |}.

(** Both workers start; the stream holds the line "ls", whose job worker 0
    takes and runs with success; then the input ends, both workers see the
    closed queue and return, and the feeder gets past its wait. *)
Definition stream_to_the_end : list Action :=
  [ WorkerStep 0 Start;
    WorkerStep 1 Start;
    FeederStep (CallRun "-" false);
    FeederStep (ReadOne (ReadLine "ls"));
    Handoff 0;
    WorkerStep 0 (RunReturn None);
    FeederStep (ReadOne ReadEOF);
    WorkerStep 0 RecvClosed;
    WorkerStep 1 RecvClosed;
    FeederStep WaitReturned ].

Definition at_the_end : System :=
  {| ctx := ctx_with_cancel; awsSession := tt; jobQueue_closed := true;
     shared := {| stats := no_stats; log := [LogOK ls_job]; wg := 0; next_addr := 6 |};
     workers := [Terminated; Terminated];
     feeder := FReturned; handed := [Some ls_job] |}.

(** Both workers are busy, with the jobs of "cp a b" and of "ls", when a
    third line is read; the context is canceled while the feeder waits to
    hand its job over. *)
Definition stream_canceled_in_submit : list Action :=
  [ WorkerStep 0 Start;
    WorkerStep 1 Start;
    FeederStep (CallRun "-" false);
    FeederStep (ReadOne (ReadLine "cp a b"));
    Handoff 0;
    FeederStep (ReadOne (ReadLine "ls"));
    Handoff 1;
    FeederStep (ReadOne (ReadLine "ls"));
    Cancel ].

Definition blocked_in_submit : System :=
  {| ctx := cancel ctx_with_cancel; awsSession := tt; jobQueue_closed := false;
     shared := {| stats := no_stats; log := []; wg := 2; next_addr := 6 |};
     workers := [Live (Executing cp_job) l0; Live (Executing ls_job) l1];
     feeder := FSend true (Some ls_job); handed := [Some cp_job; Some ls_job] |}.

End demo.

(** * Properties *)

Section Properties.

Context {env : Env}.

(** ** The worker's transitions *)

(** Inside [job.Run] a worker waits for nothing but its return, and in the
    backoff select for nothing but the timer or the cancellation. *)
Lemma executing_accepts_only_RunReturn σ l job i :
  wstep σ (Live (Executing job) l) i <> None -> exists r, i = RunReturn r.
Proof. destruct i; simpl; try done. intros _. by eexists. Qed.

Lemma backoff_accepts_only_timer_or_cancel σ l job err d i :
  wstep σ (Live (Backoff job err d) l) i <> None -> i = TimerFired \/ i = CtxDone.
Proof. destruct i; simpl; try done; auto. Qed.

Lemma loop_head_at_chain σ l next :
  at_chain (run l) next (loop_head σ l next).2.
Proof.
  unfold loop_head, at_chain. destruct next as [j|]; simpl.
  - by exists l.
  - destruct (run l) eqn:Hr; simpl; [by exists l | done].
Qed.

Lemma next_node_at_chain σ l next :
  at_chain (run l) next (next_node σ l next).2.
Proof. apply (loop_head_at_chain σ (set_bkf (set_tries l 0) (backoff.Reset (bkf l)))). Qed.

Lemma next_node_stats σ l next :
  stats (next_node σ l next).1 = stats σ /\ log (next_node σ l next).1 = log σ.
Proof.
  unfold next_node, loop_head. destruct next; simpl; [done|].
  by destruct (run l).
Qed.

Lemma fail_node_spec σ l job err :
  failure_recorded σ (fail_node σ l job err).1 job err /\
  at_chain (run l) (failCommand job) (fail_node σ l job err).2.
Proof.
  unfold fail_node, failure_recorded. split.
  - destruct (next_node_stats
      (stats_Increment (Printf σ (LogErr job (CleanupError err))) STATS_FAIL)
      l (failCommand job)) as [-> ->]. simpl. repeat split; lia.
  - apply next_node_at_chain.
Qed.

Lemma may_retry_true l err :
  may_retry l err = true <->
  IsRatelimitError err = true /\ 0 < Retries params /\ tries l < Retries params.
Proof.
  unfold may_retry. rewrite !andb_true_iff, !Z.ltb_lt. tauto.
Qed.

(** C2: a failed attempt leads to the backoff sleep (and so to a retry)
    exactly when the error is a rate-limit error, the retry budget is
    positive and the attempts so far are below it; in every other case the
    node fails for good at once: it is logged, counted as a failure, and the
    worker moves on to the failure continuation.  In particular an error
    that is not a rate-limit error is never retried, and a budget of 0
    retries nothing. *)
Theorem retry_only_ratelimited_within_budget σ l job err :
  exists σ' w',
    wstep σ (Live (Executing job) l) (RunReturn (Some err)) = Some (σ', w') /\
    ((exists d l', w' = Live (Backoff job err d) l') <->
     (IsRatelimitError err = true /\ 0 < Retries params /\ tries l < Retries params)) /\
    ((IsRatelimitError err = false \/ Retries params = 0 \/ Retries params <= tries l) ->
     failure_recorded σ σ' job err /\ at_chain (run l) (failCommand job) w').
Proof.
  simpl. destruct (may_retry l err) eqn:Hm.
  - apply may_retry_true in Hm as (H1 & H2 & H3). simpl. eexists _, _. split; [done|]. split.
    + split; [done|]. intros _. by eexists _, _.
    + intros [H|[H|H]]; [congruence | lia | lia].
  - pose proof (fail_node_spec σ l job err) as [Hrec Hat].
    destruct (fail_node σ l job err) as [σ' w'] eqn:Hf. simpl in *.
    exists σ', w'. split; [done|]. split; [|done].
    split; [|intros Hc; apply may_retry_true in Hc; congruence].
    intros (d & l' & ->). exfalso.
    destruct (failCommand job); simpl in Hat.
    + by destruct Hat as (? & ? & _).
    + destruct (run l); [by destruct Hat as (? & ? & _) | done].
Qed.

(** ** Retries of one node: proofs *)

Lemma wrun_app σ w ins1 ins2 :
  wrun σ w (ins1 ++ ins2) =
  match wrun σ w ins1 with
  | Some (σ', w') => wrun σ' w' ins2
  | None => None
  end.
Proof.
  revert σ w. induction ins1 as [|i ins1 IH]; intros σ w; simpl; [done|].
  destruct (wstep σ w i) as [[σ' w']|]; [apply IH | done].
Qed.

Lemma action_runs_app ins1 ins2 :
  action_runs (ins1 ++ ins2) = (action_runs ins1 + action_runs ins2)%nat.
Proof.
  induction ins1 as [|i ins1 IH]; simpl; [done|].
  destruct i; simpl; by rewrite ?IH.
Qed.

Lemma action_runs_attempts es : action_runs (attempts es) = length es.
Proof. induction es as [|e es IH]; simpl; [done | by rewrite IH]. Qed.

(** As long as the budget lasts, a rate-limited attempt followed by a full
    sleep brings the worker back into the same node, one try and one
    counted retry later. *)
Lemma retry_rounds job es : forall σ l,
  Forall (fun e => IsRatelimitError e = true) es ->
  0 <= tries l ->
  tries l + Z.of_nat (length es) <= Retries params ->
  exists σ' l',
    wrun σ (Live (Executing job) l) (attempts es) = Some (σ', Live (Executing job) l') /\
    retryops (stats σ') = retryops (stats σ) + Z.of_nat (length es) /\
    fails (stats σ') = fails (stats σ) /\
    wg σ' = wg σ /\
    tries l' = tries l + Z.of_nat (length es) /\
    run l' = run l /\
    wp l' = wp l /\
    bkf l' = Nat.iter (length es) advance (bkf l).
Proof.
  induction es as [|e es IH]; intros σ l Hrl H0 Hle.
  - exists σ, l. simpl. repeat split; lia.
  - apply Forall_cons in Hrl as [He Hes]. cbn [length] in Hle.
    assert (Hm : may_retry l e = true) by (apply may_retry_true; repeat split; [done | lia | lia]).
    cbn [attempts flat_map app wrun wstep]. rewrite Hm.
    destruct (backoff.NextBackOff (bkf l)) as [d b] eqn:Hb. cbn [wstep].
    destruct (IH (stats_Increment (Printf σ (LogRatelimit job d)) STATS_RETRYOP)
                 (set_bkf (set_tries l (tries l + 1)) b) Hes)
      as (σ' & l' & Hrun & Hr & Hf & Hw & Ht & Hru & Hwp & Hbk); simpl; [lia | lia |].
    exists σ', l'. split; [exact Hrun|]. simpl in *.
    repeat split; try lia; try done.
    assert (Hadv : advance (bkf l) = b) by (unfold advance; by rewrite Hb).
    by rewrite Hbk, <- Nat.iter_swap, Hadv.
Qed.

(** C1: a job whose every attempt ends in a rate-limit error, run from its
    first attempt by a worker with retry budget R > 0 that is never
    canceled, is run R + 1 times: after R attempts, each followed by a full
    sleep and a counted retry, the worker is still inside the job and no
    failure is counted; the next attempt fails it for good, so that in all
    the retry counter has grown by R, the failure counter by 1, and the
    worker stands at the head of the job's failure continuation. *)
Theorem ratelimited_job_runs_budget_plus_one job σ l es e :
  0 < Retries params ->
  tries l = 0 ->
  Z.of_nat (length es) = Retries params ->
  Forall (fun e => IsRatelimitError e = true) (es ++ [e]) ->
  exists σ1 l1 σ' w',
    wrun σ (Live (Executing job) l) (attempts es) = Some (σ1, Live (Executing job) l1) /\
    fails (stats σ1) = fails (stats σ) /\
    wrun σ (Live (Executing job) l) (attempts es ++ [RunReturn (Some e)]) = Some (σ', w') /\
    Z.of_nat (action_runs (attempts es ++ [RunReturn (Some e)])) = Retries params + 1 /\
    retryops (stats σ') = retryops (stats σ) + Retries params /\
    fails (stats σ') = fails (stats σ) + 1 /\
    at_chain (run l) (failCommand job) w'.
Proof.
  intros HR Ht Hlen Hrl. apply Forall_app in Hrl as [Hes He].
  apply Forall_cons in He as [He _].
  destruct (retry_rounds job es σ l Hes) as
    (σ1 & l1 & Hrun & Hr & Hf & Hw & Ht1 & Hru & Hwp & Hbk); [lia | lia |].
  assert (Hm : may_retry l1 e = false).
  { destruct (may_retry l1 e) eqn:Hm; [|done]. apply may_retry_true in Hm. lia. }
  pose proof (fail_node_spec σ1 l1 job e) as [(Hlog & Hfl & Hre) Hat].
  exists σ1, l1, (fail_node σ1 l1 job e).1, (fail_node σ1 l1 job e).2.
  split; [exact Hrun|]. split; [exact Hf|]. split.
  { rewrite wrun_app, Hrun. cbn [wrun wstep]. rewrite Hm.
    by destruct (fail_node σ1 l1 job e). }
  split.
  { rewrite action_runs_app, action_runs_attempts. simpl. lia. }
  rewrite Hru in Hat. repeat split; [lia | lia | exact Hat].
Qed.

(** ** The backoff sequence: proofs *)

Lemma nth_interval_succ k :
  nth_interval (S k) = Z.min (2 * nth_interval k) Minute.
Proof.
  unfold nth_interval. rewrite Nat2Z.inj_succ, Z.pow_succ_r by lia.
  assert (0 < 2 ^ Z.of_nat k) by (apply Z.pow_pos_nonneg; lia).
  unfold Minute, Second. lia.
Qed.

Lemma nth_interval_mono k : nth_interval k <= nth_interval (S k).
Proof.
  rewrite nth_interval_succ. unfold nth_interval.
  assert (0 < 2 ^ Z.of_nat k) by (apply Z.pow_pos_nonneg; lia).
  unfold Minute, Second. lia.
Qed.

Lemma advance_iter k :
  Nat.iter k advance worker_bkf =
  {| backoff.InitialInterval := Second;
     backoff.MaxInterval := Minute;
     backoff.Multiplier := 2;
     backoff.currentInterval := nth_interval k |}.
Proof.
  induction k as [|k IH].
  - reflexivity.
  - rewrite Nat.iter_succ, IH. unfold advance, backoff.NextBackOff. cbn.
    f_equal. rewrite nth_interval_succ. lia.
Qed.

(** C7: within the consecutive retries of one node, entered with the
    backoff object in its initial state, the sleep computed after the
    (k+1)-th rate-limited attempt is [nth_interval k]: the first is one
    second, each next one is twice the one before unless that exceeds the
    maximum interval, in which case it is the maximum; so the intervals
    never decrease and never exceed the maximum interval. *)
Theorem backoff_intervals_double_up_to_cap job σ l es e :
  tries l = 0 ->
  bkf l = worker_bkf ->
  Forall (fun e => IsRatelimitError e = true) (es ++ [e]) ->
  Z.of_nat (length es) < Retries params ->
  exists σ' l',
    wrun σ (Live (Executing job) l) (attempts es ++ [RunReturn (Some e)]) =
      Some (σ', Live (Backoff job e (nth_interval (length es))) l') /\
    last (log σ') = Some (LogRatelimit job (nth_interval (length es))) /\
    nth_interval 0 = Second /\
    backoff.Multiplier (bkf l') = 2 /\
    nth_interval (S (length es)) =
      Z.min (backoff.Multiplier (bkf l') * nth_interval (length es))
            (backoff.MaxInterval (bkf l')) /\
    nth_interval (length es) <= nth_interval (S (length es)) /\
    nth_interval (length es) <= backoff.MaxInterval (bkf l').
Proof.
  intros Ht Hb Hrl Hlen. apply Forall_app in Hrl as [Hes He].
  apply Forall_cons in He as [He _].
  destruct (retry_rounds job es σ l Hes) as
    (σ1 & l1 & Hrun & Hr & Hf & Hw & Ht1 & Hru & Hwp & Hbk); [lia | lia |].
  rewrite Hb, advance_iter in Hbk.
  assert (Hm : may_retry l1 e = true)
    by (apply may_retry_true; repeat split; [done | lia | lia]).
  eexists _, _. split.
  { rewrite wrun_app, Hrun. cbn [wrun wstep]. rewrite Hm, Hbk. reflexivity. }
  cbn. split; [apply last_snoc|]. split; [reflexivity|]. split; [reflexivity|].
  split; [apply nth_interval_succ|]. split; [apply nth_interval_mono|].
  unfold nth_interval. lia.
Qed.

(** ** Invariants of one worker: proofs *)

Ltac wstep_cases H :=
  match type of H with
  | wstep _ ?w ?i = Some _ =>
      destruct w as [|[|?|? ? ?] ?|]; destruct i as [|?| | |[?|]|];
      unfold start_worker, new_object in H; simpl in H; try discriminate
  end.

Lemma Some_pair {A B : Type} (x : A * B) a b :
  Some x = Some (a, b) -> x.1 = a /\ x.2 = b.
Proof. by intros [= ->]. Qed.

Lemma fresh_reset l : fresh l -> backoff.Reset (bkf l) = worker_bkf.
Proof. by intros [_ ->]. Qed.

Lemma loop_head_winv σ l next :
  fresh l -> winv (loop_head σ l next).2.
Proof.
  intros Hf. unfold loop_head. destruct next; simpl.
  - by apply fresh_reset.
  - by destruct (run l).
Qed.

Lemma next_node_fresh σ l next l' pc :
  backoff.Reset (bkf l) = worker_bkf ->
  (next_node σ l next).2 = Live pc l' -> fresh l'.
Proof.
  intros Hb. unfold next_node, loop_head. destruct next; simpl.
  - intros [= _ <-]. by split.
  - destruct (run l); [|done]. intros [= _ <-]. by split.
Qed.

Lemma next_node_winv σ l next :
  backoff.Reset (bkf l) = worker_bkf -> winv (next_node σ l next).2.
Proof. intros Hb. apply loop_head_winv. by split. Qed.

Lemma wstep_winv σ w i σ' w' :
  winv w -> wstep σ w i = Some (σ', w') -> winv w'.
Proof.
  intros Hw H. wstep_cases H; try destruct (may_retry _ _);
    apply Some_pair in H as [_ H]; simpl in H; subst w'.
  - by split.
  - apply (loop_head_winv σ (set_tries l 0)). destruct Hw as [_ Hb]. by split.
  - done.
  - done.
  - exact Hw.
  - by apply next_node_winv.
  - by apply next_node_winv.
  - by apply next_node_winv.
  - exact Hw.
Qed.

Lemma wrun_winv ins : forall σ w σ' w',
  winv w -> wrun σ w ins = Some (σ', w') -> winv w'.
Proof.
  induction ins as [|i ins IH]; intros σ w σ' w' Hw H; simpl in H.
  - by injection H as <- <-.
  - destruct (wstep σ w i) as [[σ1 w1]|] eqn:Hs; [|done].
    eapply IH; [|exact H]. by eapply wstep_winv.
Qed.

(** C6: in every state a worker can reach from its start, a worker waiting
    for a job holds the attempt count 0 and the backoff object reset; and
    every step that makes it enter a node -- a dequeued job, or the
    continuation chosen when a node is resolved by success, by failure or by
    cancellation -- other than waking up to retry the same node, leaves the
    attempt count 0 and the backoff object reset to its initial interval. *)
Theorem backoff_reset_before_next_node σ0 ins σ w :
  wrun σ0 Spawned ins = Some (σ, w) ->
  (forall l, w = Live Idle l -> fresh l) /\
  (forall i σ' job' l',
     wstep σ w i = Some (σ', Live (Executing job') l') ->
     i <> TimerFired ->
     fresh l' /\
     backoff.currentInterval (bkf l') = backoff.InitialInterval (bkf l')).
Proof.
  intros Hrun. assert (Hw : winv w) by (by eapply wrun_winv; [|exact Hrun]).
  split; [by intros l ->|].
  intros i σ' job' l' H Hi.
  assert (Hf : fresh l'); [|split; [exact Hf | by destruct Hf as [_ ->]]].
  wstep_cases H; try destruct (may_retry _ _);
    apply Some_pair in H as [_ H]; simpl in H; try done.
  - unfold loop_head in H. destruct Hw as [_ Hb].
    destruct job as [j|]; [|simpl in H; revert H; destruct (run l); simpl; done].
    simpl in H. injection H as _ <-. by split.
  - by eapply next_node_fresh.
  - by eapply next_node_fresh.
  - by eapply (next_node_fresh _ (set_run l false)).
Qed.

Lemma wstep_stopping σ w i σ' w' :
  stopping w -> wstep σ w i = Some (σ', w') ->
  stopping w' /\ i <> RecvClosed /\ forall j, i <> Recv j.
Proof.
  intros Hw H.
  assert (Hnext : forall σ l next, run l = false -> stopping (next_node σ l next).2).
  { intros σ1 l1 next Hr. unfold next_node, loop_head.
    destruct next; simpl; [done|]. by rewrite Hr. }
  wstep_cases H; simpl in Hw; try done; try destruct (may_retry _ _);
    apply Some_pair in H as [_ H]; simpl in H; subst w';
    (split; [|done]); try done; by apply Hnext.
Qed.

Lemma wrun_stopping ins : forall σ w σ' w',
  stopping w -> wrun σ w ins = Some (σ', w') ->
  stopping w' /\ Forall (fun i => i <> RecvClosed /\ forall j, i <> Recv j) ins.
Proof.
  induction ins as [|i ins IH]; intros σ w σ' w' Hw H; simpl in H.
  - injection H as <- <-. by split.
  - destruct (wstep σ w i) as [[σ1 w1]|] eqn:Hs; [|done].
    destruct (wstep_stopping _ _ _ _ _ Hw Hs) as [Hw1 Hi].
    destruct (IH _ _ _ _ Hw1 H) as [Hw' Hins]. split; [done|]. by constructor.
Qed.

Lemma at_chain_false_stopping next w : at_chain false next w -> stopping w.
Proof.
  unfold at_chain. destruct next; [|by intros ->]. by intros (l & -> & Hr).
Qed.

(** C3: when the cancellation case fires while a worker sleeps in backoff,
    the node is not retried (no retry is counted): it is logged and counted
    as a failure and the worker enters the failure continuation, with [run]
    false.  From then on, whatever happens, the worker is inside the chain
    with [run] false or has terminated: it never waits for a job again, no
    receive from the queue is ever one of its steps, and the resolution of
    the last node of the chain terminates it. *)
Theorem cancel_in_backoff_fails_node_and_stops_worker σ l job err d :
  exists σ1 w1,
    wstep σ (Live (Backoff job err d) l) CtxDone = Some (σ1, w1) /\
    failure_recorded σ σ1 job err /\
    at_chain false (failCommand job) w1 /\
    forall ins σ2 w2,
      wrun σ1 w1 ins = Some (σ2, w2) ->
      Forall (fun i => i <> RecvClosed /\ forall j, i <> Recv j) ins /\
      stopping w2 /\
      (forall i σ3 w3,
         wstep σ2 w2 i = Some (σ3, w3) ->
         w3 = Terminated \/ exists pc l3, w3 = Live pc l3 /\ pc <> Idle /\ run l3 = false) /\
      (forall j l2,
         w2 = Live (Executing j) l2 ->
         (successCommand j = None ->
          exists σ3, wstep σ2 w2 (RunReturn None) = Some (σ3, Terminated)) /\
         (forall err', may_retry l2 err' = false -> failCommand j = None ->
          exists σ3, wstep σ2 w2 (RunReturn (Some err')) = Some (σ3, Terminated))).
Proof.
  pose proof (fail_node_spec σ (set_run l false) job err) as [Hrec Hat].
  simpl in Hat. destruct (fail_node σ (set_run l false) job err) as [σ1 w1] eqn:Hf.
  simpl in *. exists σ1, w1. split; [by rewrite Hf|]. split; [done|]. split; [done|].
  intros ins σ2 w2 Hrun.
  destruct (wrun_stopping ins _ _ _ _ (at_chain_false_stopping _ _ Hat) Hrun) as [Hw2 Hins].
  split; [done|]. split; [done|]. split.
  - intros i σ3 w3 Hs. destruct (wstep_stopping _ _ _ _ _ Hw2 Hs) as [Hw3 _].
    destruct w3 as [|[|j|j e s] l3|]; simpl in Hw3; try done; [right | right | by left].
    + by exists (Executing j), l3.
    + by exists (Backoff j e s), l3.
  - intros j l2 ->. simpl in Hw2. split.
    + intros Hs. simpl. unfold next_node, loop_head. rewrite Hs. simpl. rewrite Hw2.
      by eexists.
    + intros err' Hm Hfc. simpl. rewrite Hm. unfold fail_node, next_node, loop_head.
      rewrite Hfc. simpl. rewrite Hw2. by eexists.
Qed.

(** ** Choosing the continuation: proofs *)

Lemma wstep_serving σ w i σ' w' :
  serving w -> i <> CtxDone -> wstep σ w i = Some (σ', w') -> serving w'.
Proof.
  intros Hw Hi H.
  assert (Hnext : forall σ l next, run l = true -> serving (next_node σ l next).2).
  { intros σ1 l1 next Hr. unfold next_node, loop_head.
    destruct next; simpl; [done|]. by rewrite Hr. }
  wstep_cases H; simpl in Hw; try done; try destruct (may_retry _ _);
    apply Some_pair in H as [_ H]; simpl in H; subst w'; try done;
    try by apply Hnext.
  unfold loop_head. destruct job; simpl; [done|]. by rewrite Hw.
Qed.

Lemma wrun_serving ins : forall σ w σ' w',
  serving w -> CtxDone ∉ ins -> wrun σ w ins = Some (σ', w') -> serving w'.
Proof.
  induction ins as [|i ins IH]; intros σ w σ' w' Hw Hn H; simpl in H.
  - by injection H as <- <-.
  - destruct (wstep σ w i) as [[σ1 w1]|] eqn:Hs; [|done].
    apply not_elem_of_cons in Hn as [Hi Hn].
    eapply IH; [|exact Hn|exact H]. by eapply wstep_serving.
Qed.

(** C5 (amended): the continuation is chosen by the outcome of the step
    that resolves the node, and by nothing before it.  A success is logged,
    counts nothing, and puts the worker at the head of the success
    continuation; a failure that may not be retried, and a sleep cut short
    by the cancellation, are logged, counted as one failure, and put the
    worker at the head of the failure continuation.  At the head of an
    absent continuation the worker waits for a job again when [run] is
    true, and terminates when [run] is false; [run] is true in every state
    reached without a cancellation input, and false after a sleep cut short
    by the cancellation.  A failure that may be retried chooses nothing: the
    worker sleeps and then re-enters the same node. *)
Theorem continuation_follows_outcome σ l job :
  (exists σ' w',
     wstep σ (Live (Executing job) l) (RunReturn None) = Some (σ', w') /\
     log σ' = log σ ++ [LogOK job] /\ stats σ' = stats σ /\
     at_chain (run l) (successCommand job) w') /\
  (forall err, may_retry l err = false ->
     exists σ' w',
       wstep σ (Live (Executing job) l) (RunReturn (Some err)) = Some (σ', w') /\
       failure_recorded σ σ' job err /\
       at_chain (run l) (failCommand job) w') /\
  (forall err d,
     exists σ' w',
       wstep σ (Live (Backoff job err d) l) CtxDone = Some (σ', w') /\
       failure_recorded σ σ' job err /\
       at_chain false (failCommand job) w') /\
  (forall err, may_retry l err = true ->
     exists σ' d l',
       wstep σ (Live (Executing job) l) (RunReturn (Some err)) =
         Some (σ', Live (Backoff job err d) l') /\
       stats σ' = stats σ) /\
  (forall err d,
     wstep σ (Live (Backoff job err d) l) TimerFired =
       Some (stats_Increment σ STATS_RETRYOP, Live (Executing job) l)) /\
  (forall σ0 ins pc,
     wrun σ0 Spawned ins = Some (σ, Live pc l) -> CtxDone ∉ ins -> run l = true).
Proof.
  repeat split.
  - destruct (next_node_stats (Printf σ (LogOK job)) l (successCommand job)) as [Hs Hl].
    pose proof (next_node_at_chain (Printf σ (LogOK job)) l (successCommand job)) as Hat.
    destruct (next_node (Printf σ (LogOK job)) l (successCommand job)) as [σ' w'] eqn:Hn.
    exists σ', w'. simpl in *. by rewrite Hn.
  - intros err Hm. pose proof (fail_node_spec σ l job err) as [Hrec Hat].
    destruct (fail_node σ l job err) as [σ' w'] eqn:Hf.
    exists σ', w'. simpl in *. by rewrite Hm, Hf.
  - intros err d. pose proof (fail_node_spec σ (set_run l false) job err) as [Hrec Hat].
    destruct (fail_node σ (set_run l false) job err) as [σ' w'] eqn:Hf.
    exists σ', w'. simpl in *. by rewrite Hf.
  - intros err Hm. simpl. rewrite Hm. by eexists _, _, _.
  - intros σ0 ins pc Hrun Hn.
    by apply (wrun_serving ins σ0 Spawned σ (Live pc l)).
Qed.

(** ** Invariants of the pool: proofs *)

Lemma weight_nonneg w : 0 <= weight w.
Proof. destruct w; simpl; lia. Qed.

Lemma live_count_nonneg ws : 0 <= live_count ws.
Proof.
  induction ws as [|w ws IH]; simpl; [lia|]. pose proof (weight_nonneg w). lia.
Qed.

Lemma live_count_insert ws : forall i w w',
  ws !! i = Some w ->
  live_count (<[i := w']> ws) = live_count ws - weight w + weight w'.
Proof.
  induction ws as [|v ws IH]; intros i w w' Hi; [done|].
  destruct i as [|i]; simpl in *.
  - injection Hi as ->. lia.
  - rewrite (IH i w w' Hi). lia.
Qed.

Lemma live_count_zero ws :
  live_count ws = 0 -> Forall (fun w => w = Terminated) ws.
Proof.
  induction ws as [|w ws IH]; simpl; intros H; [constructor|].
  pose proof (weight_nonneg w). pose proof (live_count_nonneg ws).
  constructor; [|apply IH; lia].
  destruct w; simpl in *; [lia | lia | done].
Qed.

Lemma live_count_replicate n : live_count (replicate n Spawned) = Z.of_nat n.
Proof. induction n as [|n IH]; [done|]. cbn [replicate live_count weight]. lia. Qed.

Lemma loop_head_wg σ l next :
  wg (loop_head σ l next).1 = wg σ - 1 + weight (loop_head σ l next).2.
Proof.
  unfold loop_head. destruct next; simpl; [lia|]. destruct (run l); simpl; lia.
Qed.

Lemma fail_node_wg σ l job err :
  wg (fail_node σ l job err).1 = wg σ - 1 + weight (fail_node σ l job err).2.
Proof. unfold fail_node, next_node. by rewrite loop_head_wg. Qed.

Lemma wstep_wg σ w i σ' w' :
  wstep σ w i = Some (σ', w') ->
  wg σ' = wg σ - weight w + weight w' /\ w <> Terminated.
Proof.
  intros H. split; [|by intros ->].
  wstep_cases H; try destruct (may_retry _ _);
    apply Some_pair in H as [H1 H2]; simpl in H1, H2; subst σ' w'; simpl;
    rewrite ?loop_head_wg, ?fail_node_wg; try lia.
  all: unfold next_node; rewrite loop_head_wg; simpl; lia.
Qed.

Lemma worker_moves_spec s i inp s' :
  worker_moves s i inp = Some s' ->
  exists w σ' w',
    workers s !! i = Some w /\
    wstep (shared s) w inp = Some (σ', w') /\
    s' = set_workers (set_shared s σ') (<[i := w']> (workers s)).
Proof.
  unfold worker_moves. destruct (workers s !! i) as [w|] eqn:Hi; [|done].
  destruct (wstep (shared s) w inp) as [[σ' w']|] eqn:Hs; [|done].
  intros [= <-]. by exists w, σ', w'.
Qed.

Lemma worker_moves_sinv s i inp s' :
  sinv s -> worker_moves s i inp = Some s' ->
  wg (shared s') = live_count (workers s') /\
  feeder s' = feeder s /\ jobQueue_closed s' = jobQueue_closed s /\
  (wg (shared s) = 0 -> False).
Proof.
  intros [Hwg _] H. apply worker_moves_spec in H as (w & σ' & w' & Hi & Hs & ->).
  apply wstep_wg in Hs as [Hs Hw]. simpl.
  rewrite (live_count_insert _ _ _ w' Hi). repeat split; [lia|].
  intros H0. rewrite Hwg in H0. apply live_count_zero in H0.
  by rewrite Forall_lookup in H0; specialize (H0 i w Hi).
Qed.

Lemma close_jobQueue_sinv s k :
  wg (shared s) = live_count (workers s) ->
  jobQueue_closed s = false ->
  k = FWait false \/ (k = FReturned /\ wg (shared s) = 0) ->
  sinv (close_jobQueue s k).
Proof.
  intros Hwg Hc Hk. unfold close_jobQueue, sinv. rewrite Hc. simpl.
  split; [done|]. by destruct Hk as [->|[-> ?]].
Qed.

Lemma singleRun_sinv s stream line :
  wg (shared s) = live_count (workers s) ->
  jobQueue_closed s = false ->
  sinv (singleRun s stream line).
Proof.
  intros Hwg Hc. unfold singleRun. destruct (ParseJob line) as [job|err].
  - by split.
  - unfold after_singleRun. destruct stream; [by split|].
    apply close_jobQueue_sinv; auto.
Qed.

Lemma fstep_sinv s i s' : sinv s -> fstep s i = Some s' -> sinv s'.
Proof.
  intros [Hwg Hf] H. unfold fstep in H.
  destruct (feeder s) eqn:Hfd; destruct i as [? ?|?|[?| | |]| | |];
    try discriminate.
  - destruct (_ || _)%bool; injection H as <-; by split.
  - injection H as <-. by apply singleRun_sinv.
  - injection H as <-. by apply singleRun_sinv.
  - injection H as <-. apply close_jobQueue_sinv; auto.
  - injection H as <-. by split.
  - injection H as <-. by split.
  - destruct (Done (ctx s)); [|done]. injection H as <-.
    unfold after_singleRun. destruct stream; [by split|].
    apply close_jobQueue_sinv; auto.
  - rewrite Hf in H. done.
  - destruct (wg (shared s) =? 0) eqn:H0; [|done]. apply Z.eqb_eq in H0.
    injection H as <-. destruct close_after; simpl in Hf.
    + apply close_jobQueue_sinv; auto.
    + by split.
Qed.

Lemma sstep_sinv s a s' : sinv s -> sstep s a = Some s' -> sinv s'.
Proof.
  intros Hinv H. unfold sstep in H. destruct (crashed s); [done|].
  destruct a as [|i inp|i|inp].
  - injection H as <-. exact Hinv.
  - destruct (worker_enabled s inp); [|done].
    destruct (worker_moves_sinv _ _ _ _ Hinv H) as (Hwg & Hf & Hc & H0).
    split; [done|]. rewrite Hf, Hc. destruct Hinv as [_ Hfd].
    destruct (feeder s); try done.
    destruct Hfd as [_ Hz]. by destruct (H0 Hz).
  - destruct (feeder s) as [| |stream job| | | |] eqn:Hfd; try done.
    destruct (jobQueue_closed s) eqn:Hc; [done|].
    destruct (worker_moves s i (Recv job)) as [s1|] eqn:Hm; [|done].
    injection H as <-.
    destruct (worker_moves_sinv _ _ _ _ Hinv Hm) as (Hwg & Hf & Hc1 & _).
    rewrite Hc in Hc1.
    unfold after_singleRun. destruct stream; [by split|].
    apply close_jobQueue_sinv; auto.
  - by eapply fstep_sinv.
Qed.

Lemma srun_sinv acts : forall s s', sinv s -> srun s acts = Some s' -> sinv s'.
Proof.
  induction acts as [|a acts IH]; intros s s' Hinv H; simpl in H.
  - by injection H as <-.
  - destruct (sstep s a) as [s1|] eqn:Hs; [|done].
    eapply IH; [|exact H]. by eapply sstep_sinv.
Qed.

Lemma spawn_iter n σ ws :
  Nat.iter n spawn_one (σ, ws) =
  ({| stats := stats σ; log := log σ; wg := wg σ + Z.of_nat n; next_addr := next_addr σ |},
   ws ++ replicate n Spawned).
Proof.
  induction n as [|n IH].
  - simpl. rewrite app_nil_r, Z.add_0_r. by destruct σ.
  - rewrite Nat.iter_succ, IH. unfold spawn_one, wg_Add.
    cbn [fst snd stats log wg next_addr].
    rewrite <- app_assoc, <- replicate_S_end. f_equal. f_equal. lia.
Qed.

Lemma NewWorkerPool_Returns ses c st lg heap s0 :
  NewWorkerPool ses c st lg heap = Returns s0 ->
  exists ses0,
    ses = inl ses0 /\ Value c "cancelFunc" = Some CancelFuncValue /\
    s0 = {| ctx := c; awsSession := ses0; jobQueue_closed := false;
            shared := {| stats := st; log := lg;
                         wg := Z.of_nat (Z.to_nat (NumWorkers params));
                         next_addr := heap |};
            workers := replicate (Z.to_nat (NumWorkers params)) Spawned;
            feeder := FReady; handed := [] |}.
Proof.
  unfold NewWorkerPool. destruct ses as [ses0|]; [|done].
  destruct (Value c "cancelFunc") as [[|]|]; try done.
  rewrite spawn_iter. simpl. intros [= <-]. by exists ses0.
Qed.

Lemma NewWorkerPool_sinv ses c st lg heap s0 :
  NewWorkerPool ses c st lg heap = Returns s0 -> sinv s0.
Proof.
  intros H. apply NewWorkerPool_Returns in H as (ses0 & _ & _ & ->).
  split; [|done]. simpl. by rewrite live_count_replicate.
Qed.

Lemma live_count_terminated ws :
  Forall (fun w => w = Terminated) ws -> live_count ws = 0.
Proof. induction 1 as [|w ws -> _ IH]; simpl; [done | lia]. Qed.

(** C4: in every state a pool reaches after its construction, the feeder
    has not panicked, and: at the read of line 176, end of input closes the
    queue at once and cancellation leaves it open, and both make the feeder
    wait for the workers; a waiting feeder gets past the wait exactly when
    every worker has returned, and then closes the queue unless the end of
    input has closed it, so that it returns with the queue closed; and a
    feeder that has returned left the queue closed and every worker
    returned. *)
Theorem stream_run_closes_queue_and_joins ses c st lg heap s0 acts s :
  NewWorkerPool ses c st lg heap = Returns s0 ->
  srun s0 acts = Some s ->
  feeder s <> FPanicked /\
  (feeder s = FReadOne ->
     (exists s', sstep s (FeederStep (ReadOne ReadEOF)) = Some s' /\
                 jobQueue_closed s' = true /\ feeder s' = FWait false) /\
     (exists s', sstep s (FeederStep (ReadOne ReadCanceled)) = Some s' /\
                 jobQueue_closed s' = false /\ feeder s' = FWait true)) /\
  (forall close_after,
     feeder s = FWait close_after ->
     jobQueue_closed s = negb close_after /\
     (forall s', sstep s (FeederStep WaitReturned) = Some s' ->
        Forall (fun w => w = Terminated) (workers s) /\
        workers s' = workers s /\
        feeder s' = FReturned /\ jobQueue_closed s' = true) /\
     (Forall (fun w => w = Terminated) (workers s) ->
        exists s', sstep s (FeederStep WaitReturned) = Some s')) /\
  (feeder s = FReturned ->
     jobQueue_closed s = true /\ Forall (fun w => w = Terminated) (workers s)).
Proof.
  intros Hnew Hrun.
  assert (Hinv : sinv s).
  { eapply srun_sinv; [|exact Hrun]. by eapply NewWorkerPool_sinv. }
  destruct Hinv as [Hwg Hf]. split; [by intros E; rewrite E in Hf|]. split; [|split].
  - intros E. rewrite E in Hf. unfold sstep, crashed, fstep, close_jobQueue.
    rewrite E, Hf. split; eexists; (split; [reflexivity|]); by simpl.
  - intros close_after E. rewrite E in Hf. split; [done|].
    unfold sstep, crashed, fstep. rewrite E. split.
    + intros s' H. destruct (wg (shared s) =? 0) eqn:H0; [|done].
      apply Z.eqb_eq in H0. rewrite Hwg in H0. apply live_count_zero in H0.
      split; [done|]. injection H as <-. unfold close_jobQueue. rewrite Hf.
      by destruct close_after.
    + intros Hall. apply live_count_terminated in Hall.
      rewrite Hwg, Hall. simpl. by eexists.
  - intros E. rewrite E in Hf. destruct Hf as [Hc H0]. split; [done|].
    rewrite Hwg in H0. by apply live_count_zero.
Qed.

(** ** Submitting a job: proofs *)

Lemma close_jobQueue_frame s k :
  workers (close_jobQueue s k) = workers s /\
  handed (close_jobQueue s k) = handed s /\
  shared (close_jobQueue s k) = shared s /\
  (feeder (close_jobQueue s k) = k \/ feeder (close_jobQueue s k) = FPanicked).
Proof. unfold close_jobQueue. destruct (jobQueue_closed s); simpl; auto. Qed.




(** ** The workers' clients: proofs *)

Lemma loop_head_clients σ l next :
  next_addr (loop_head σ l next).1 = next_addr σ /\
  forall pc' l', (loop_head σ l next).2 = Live pc' l' -> wp l' = wp l.
Proof.
  unfold loop_head. destruct next; simpl.
  - split; [done|]. by intros pc' l' [= _ <-].
  - destruct (run l); simpl; split; try done. by intros pc' l' [= _ <-].
Qed.

Lemma wstep_clients σ w i σ' w' :
  wstep σ w i = Some (σ', w') ->
  (w = Spawned /\ next_addr σ' = (next_addr σ + 3)%nat /\
   exists l', w' = Live Idle l' /\ s3svc (wp l') = next_addr σ /\ own_clients σ' l') \/
  (next_addr σ' = next_addr σ /\
   forall pc' l', w' = Live pc' l' -> exists pc l, w = Live pc l /\ wp l' = wp l).
Proof.
  intros H.
  assert (Hnext : forall σ1 l1 next,
    next_addr (next_node σ1 l1 next).1 = next_addr σ1 /\
    forall pc' l', (next_node σ1 l1 next).2 = Live pc' l' -> wp l' = wp l1).
  { intros σ1 l1 next. unfold next_node.
    apply (loop_head_clients σ1 (set_bkf (set_tries l1 0) (backoff.Reset (bkf l1)))). }
  wstep_cases H; try destruct (may_retry _ _);
    apply Some_pair in H as [H1 H2]; simpl in H1, H2; subst σ' w'.
  - left. split; [done|]. split; [simpl; lia|]. eexists. split; [done|].
    unfold own_clients. simpl. repeat split; lia.
  - right. destruct (loop_head_clients σ (set_tries l 0) job) as [-> Hwp].
    split; [done|]. intros pc' l' E. exists Idle, l. split; [done|]. by apply (Hwp pc').
  - right. simpl. split; [done|]. done.
  - right. simpl. split; [done|]. done.
  - right. simpl. split; [done|]. intros pc' l' [= _ <-]. by eexists _, _.
  - right. unfold fail_node. destruct (Hnext
      (stats_Increment (Printf σ (LogErr job (CleanupError e))) STATS_FAIL)
      l (failCommand job)) as [-> Hwp].
    split; [done|]. intros pc' l' E. eexists _, l. split; [done|]. by apply (Hwp pc').
  - right. destruct (Hnext (Printf σ (LogOK job)) l (successCommand job)) as [-> Hwp].
    split; [done|]. intros pc' l' E. eexists _, l. split; [done|]. by apply (Hwp pc').
  - right. unfold fail_node. destruct (Hnext
      (stats_Increment (Printf σ (LogErr job (CleanupError err))) STATS_FAIL)
      (set_run l false) (failCommand job)) as [-> Hwp].
    split; [done|]. intros pc' l' E. eexists _, l. split; [done|]. by apply (Hwp pc').
  - right. simpl. split; [done|]. intros pc' l' [= _ <-]. by eexists _, _.
Qed.

Lemma own_clients_mono σ σ' l :
  (next_addr σ <= next_addr σ')%nat -> own_clients σ l -> own_clients σ' l.
Proof. unfold own_clients. intros Hle (? & ? & ? & ?). repeat split; try done. lia. Qed.

Lemma worker_moves_hinv s i inp s' :
  hinv s -> worker_moves s i inp = Some s' -> hinv s'.
Proof.
  intros Hinv H. apply worker_moves_spec in H as (w & σ' & w' & Hi & Hs & ->).
  pose proof (lookup_lt_Some _ _ _ Hi) as Hlt.
  apply wstep_clients in Hs as [(-> & Hna & l0 & -> & Hbase & Hown) | [Hna Hwp]].
  - intros k pc l Hk. simpl in *.
    destruct (decide (k = i)) as [->|Hne].
    + rewrite list_lookup_insert_eq in Hk by done. injection Hk as <- <-.
      split; [done|]. intros j pc' l' Hj Hl'.
      rewrite list_lookup_insert_ne in Hl' by done.
      destruct (Hinv j pc' l' Hl') as [(_ & _ & Hb & _) _]. right. lia.
    + rewrite list_lookup_insert_ne in Hk by done.
      destruct (Hinv k pc l Hk) as [Hown' Hap]. split.
      * eapply own_clients_mono; [|exact Hown']. lia.
      * intros j pc' l' Hj Hl'. destruct (decide (j = i)) as [->|Hne'].
        -- rewrite list_lookup_insert_eq in Hl' by done. injection Hl' as <- <-.
           destruct Hown' as (_ & _ & Hb & _). left. lia.
        -- rewrite list_lookup_insert_ne in Hl' by done. by eapply Hap.
  - assert (Hsame : forall k pc l,
      <[i:=w']> (workers s) !! k = Some (Live pc l) ->
      exists pc0 l0, workers s !! k = Some (Live pc0 l0) /\ wp l = wp l0).
    { intros k pc l Hk. destruct (decide (k = i)) as [->|Hne].
      - rewrite list_lookup_insert_eq in Hk by done. injection Hk as ->.
        destruct (Hwp pc l eq_refl) as (pc0 & l0 & -> & E). by exists pc0, l0.
      - rewrite list_lookup_insert_ne in Hk by done. by exists pc, l. }
    intros k pc l Hk. simpl in *.
    destruct (Hsame k pc l Hk) as (pc0 & l0 & Hk0 & E).
    destruct (Hinv k pc0 l0 Hk0) as [Hown Hap]. split.
    + unfold own_clients in *. by rewrite E, Hna.
    + intros j pc' l' Hj Hl'. destruct (Hsame j pc' l' Hl') as (pc1 & l1 & Hj1 & E1).
      specialize (Hap j pc1 l1 Hj Hj1). unfold apart in *. by rewrite E, E1.
Qed.

Lemma singleRun_frame s stream line :
  workers (singleRun s stream line) = workers s /\
  next_addr (shared (singleRun s stream line)) = next_addr (shared s).
Proof.
  unfold singleRun, after_singleRun. destruct (ParseJob line); [done|].
  destruct stream; simpl; [done|].
  by destruct (close_jobQueue_frame (set_shared s
    (stats_Increment (Printf (shared s) (LogParseErr line e)) STATS_FAIL)) (FWait false))
    as (-> & _ & -> & _).
Qed.

Lemma fstep_frame s i s' :
  fstep s i = Some s' ->
  workers s' = workers s /\ next_addr (shared s') = next_addr (shared s).
Proof.
  unfold fstep. intros H.
  destruct (feeder s); destruct i as [? ?|?|[?| | |]| | |]; try discriminate.
  - by destruct (_ || _)%bool; injection H as <-.
  - injection H as <-. apply singleRun_frame.
  - injection H as <-. apply singleRun_frame.
  - injection H as <-. by destruct (close_jobQueue_frame s (FWait false)) as (-> & _ & -> & _).
  - by injection H as <-.
  - by injection H as <-.
  - destruct (Done (ctx s)); [|done]. injection H as <-.
    unfold after_singleRun. destruct stream; [done|].
    by destruct (close_jobQueue_frame s (FWait false)) as (-> & _ & -> & _).
  - destruct (jobQueue_closed s); [|done]. by injection H as <-.
  - destruct (wg (shared s) =? 0); [|done]. injection H as <-.
    destruct close_after; [|done].
    by destruct (close_jobQueue_frame s FReturned) as (-> & _ & -> & _).
Qed.

Lemma hinv_frame s s' :
  workers s' = workers s -> next_addr (shared s') = next_addr (shared s) ->
  hinv s -> hinv s'.
Proof.
  intros Hw Hn Hinv i pc l Hi. rewrite Hw in Hi.
  destruct (Hinv i pc l Hi) as [Hown Hap]. split.
  - unfold own_clients in *. by rewrite Hn.
  - intros j pc' l' Hj Hl'. rewrite Hw in Hl'. by eapply Hap.
Qed.

Lemma sstep_hinv s a s' :
  hinv s -> sstep s a = Some s' -> hinv s' /\ length (workers s') = length (workers s).
Proof.
  intros Hinv H. unfold sstep in H. destruct (crashed s); [done|].
  destruct a as [|i inp|i|inp].
  - injection H as <-. done.
  - destruct (worker_enabled s inp); [|done]. split; [by eapply worker_moves_hinv|].
    apply worker_moves_spec in H as (w & σ' & w' & _ & _ & ->). simpl.
    by rewrite length_insert.
  - destruct (feeder s) as [| |stream job| | | |]; try done.
    destruct (jobQueue_closed s); [done|].
    destruct (worker_moves s i (Recv job)) as [s1|] eqn:Hm; [|done].
    injection H as <-. pose proof (worker_moves_hinv _ _ _ _ Hinv Hm) as H1.
    apply worker_moves_spec in Hm as (w & σ' & w' & _ & _ & E).
    assert (Hfr : workers (after_singleRun (add_handed s1 job) stream true) = workers s1 /\
                  next_addr (shared (after_singleRun (add_handed s1 job) stream true))
                  = next_addr (shared s1)).
    { unfold after_singleRun. destruct stream; [done|].
      by destruct (close_jobQueue_frame (add_handed s1 job) (FWait false))
        as (-> & _ & -> & _). }
    destruct Hfr as [Hw Hn]. split; [by eapply hinv_frame|].
    rewrite Hw, E. simpl. by rewrite length_insert.
  - apply fstep_frame in H as [Hw Hn]. split; [by eapply hinv_frame|]. by rewrite Hw.
Qed.

Lemma srun_hinv acts : forall s s',
  hinv s -> srun s acts = Some s' ->
  hinv s' /\ length (workers s') = length (workers s).
Proof.
  induction acts as [|a acts IH]; intros s s' Hinv H; simpl in H.
  - by injection H as <-.
  - destruct (sstep s a) as [s1|] eqn:Hs; [|done].
    destruct (sstep_hinv _ _ _ Hinv Hs) as [H1 Hl].
    destruct (IH _ _ H1 H) as [H2 Hl']. split; [done | congruence].
Qed.

(** C9: construction leaves [NumWorkers] goroutines spawned, none of which
    has run yet, and the WaitGroup at that count.  Each of them, when it
    starts, constructs its own service client, downloader and uploader; and
    in every state the pool reaches the number of workers is the same, the
    three clients of a worker are three different objects, its uploader has
    the configured part size, and no client of one worker is a client of
    another. *)
Theorem every_worker_builds_its_own_clients ses c st lg heap s0 :
  NewWorkerPool ses c st lg heap = Returns s0 ->
  length (workers s0) = Z.to_nat (NumWorkers params) /\
  (0 <= NumWorkers params ->
   Z.of_nat (length (workers s0)) = NumWorkers params /\
   wg (shared s0) = NumWorkers params) /\
  Forall (fun w => w = Spawned) (workers s0) /\
  forall acts s,
    srun s0 acts = Some s ->
    length (workers s) = length (workers s0) /\
    (forall i, workers s !! i = Some Spawned -> crashed s = false ->
       exists s' l,
         sstep s (WorkerStep i Start) = Some s' /\
         workers s' !! i = Some (Live Idle l) /\
         handles (wp l) = [next_addr (shared s); S (next_addr (shared s));
                           S (S (next_addr (shared s)))]) /\
    (forall i pc l,
       workers s !! i = Some (Live pc l) ->
       NoDup (handles (wp l)) /\
       PartSize (s3ul (wp l)) = ChunkSizeBytes params /\
       forall j pc' l',
         j <> i -> workers s !! j = Some (Live pc' l') ->
         forall a, a ∈ handles (wp l) -> a ∉ handles (wp l')).
Proof.
  intros Hnew. apply NewWorkerPool_Returns in Hnew as (ses0 & _ & _ & ->). simpl.
  split; [by rewrite length_replicate|]. split.
  { intros H0. rewrite length_replicate. lia. }
  split; [apply Forall_replicate; done|].
  intros acts s Hrun.
  match type of Hrun with srun ?s0 _ = _ => assert (Hinv0 : hinv s0) end.
  { intros i pc l Hi. simpl in Hi. apply lookup_replicate in Hi as [? _]. done. }
  destruct (srun_hinv _ _ _ Hinv0 Hrun) as [Hinv Hlen]. simpl in Hlen.
  split; [done|]. split.
  - intros i Hi Hc. unfold sstep, worker_moves. rewrite Hc, Hi. simpl.
    eexists _, _. split; [reflexivity|]. simpl.
    rewrite list_lookup_insert_eq by (by eapply lookup_lt_Some). done.
  - intros i pc l Hi. destruct (Hinv i pc l Hi) as [(Hd & Hu & Hb & Hp) Hap].
    unfold handles. rewrite Hd, Hu. split; [|split; [done|]].
    + repeat constructor; rewrite ?elem_of_cons, ?elem_of_nil; lia.
    + intros j pc' l' Hj Hl' a Ha.
      destruct (Hinv j pc' l' Hl') as [(Hd' & Hu' & _) _].
      specialize (Hap j pc' l' Hj Hl'). rewrite Hd', Hu'. unfold apart in Hap.
      rewrite !elem_of_cons, elem_of_nil in *. lia.
Qed.

(** ** The cancel function in the context: proofs *)

(** C10 (amended): with a context that holds no cancel function under the
    key "cancelFunc" -- no value at all, or a value of another type --
    construction never returns a pool, so no worker is spawned: it panics
    at the type assertion when the session was created, and it has exited
    through log.Fatal before reaching the assertion when the session could
    not be created. *)
Theorem no_pool_without_cancelFunc ses c st lg heap :
  Value c "cancelFunc" <> Some CancelFuncValue ->
  (forall s0, NewWorkerPool ses c st lg heap <> Returns s0) /\
  (forall ses0, ses = inl ses0 -> NewWorkerPool ses c st lg heap = Panics) /\
  (forall err, ses = inr err -> NewWorkerPool ses c st lg heap = Exits).
Proof.
  intros Hc. unfold NewWorkerPool. split; [|split].
  - intros s0 H. destruct ses; [|done].
    destruct (Value c "cancelFunc") as [[|]|]; done.
  - intros ses0 ->. destruct (Value c "cancelFunc") as [[|]|]; done.
  - by intros err ->.
Qed.

(** ** More on one worker *)

Lemma loop_head_tries σ l next :
  0 <= tries l <= Z.max 0 (Retries params) ->
  (next = None -> tries l = 0) ->
  tries_in_budget (loop_head σ l next).2.
Proof.
  intros Ht Hn. unfold loop_head. destruct next; simpl; [done|].
  destruct (run l); simpl; [|done]. split; [done|]. by apply Hn.
Qed.

Lemma wstep_tries σ w i σ' w' :
  tries_in_budget w -> wstep σ w i = Some (σ', w') -> tries_in_budget w'.
Proof.
  intros Hw H.
  assert (Hnext : forall σ1 l1 next, tries_in_budget (next_node σ1 l1 next).2).
  { intros σ1 l1 next. apply loop_head_tries; simpl; [lia | done]. }
  wstep_cases H; try destruct (may_retry _ _) eqn:Hm;
    apply Some_pair in H as [_ H]; simpl in H; subst w'; try apply Hnext.
  - simpl. lia.
  - apply loop_head_tries; simpl; [lia | done].
  - done.
  - done.
  - apply may_retry_true in Hm as (_ & H0 & Hlt). simpl in *. lia.
  - simpl in *. split; [tauto | done].
Qed.

(** X7: in every state a worker reaches from its start the attempt counter
    of line 97 lies between 0 and the retry budget (0 when the budget is
    negative), and it is at least 1 while the worker sleeps before a
    retry. *)
Theorem attempts_stay_within_budget σ0 ins σ pc l :
  wrun σ0 Spawned ins = Some (σ, Live pc l) ->
  0 <= tries l <= Z.max 0 (Retries params) /\
  (forall j e d, pc = Backoff j e d -> 1 <= tries l).
Proof.
  intros Hrun.
  assert (Hinv : forall ins σ1 w1 σ2 w2,
            tries_in_budget w1 -> wrun σ1 w1 ins = Some (σ2, w2) -> tries_in_budget w2).
  { clear. induction ins as [|i ins IH]; intros σ1 w1 σ2 w2 Hw H; simpl in H.
    - by injection H as <- <-.
    - destruct (wstep σ1 w1 i) as [[σ3 w3]|] eqn:Hs; [|done].
      eapply IH; [|exact H]. by eapply wstep_tries. }
  specialize (Hinv ins σ0 Spawned σ (Live pc l) I Hrun). simpl in Hinv.
  destruct Hinv as [Ht Hpc]. split; [done|]. by intros j e d ->.
Qed.

(** X4: a worker inside the first node of a chain whose nodes all succeed
    logs one success line per node, in the order of the chain, counts
    nothing, and then stands where an empty continuation leaves it. *)
Theorem success_chain_logs_in_order js : forall j σ l,
  follows_success j js ->
  exists σ' w',
    wrun σ (Live (Executing j) l) (replicate (S (length js)) (RunReturn None)) =
      Some (σ', w') /\
    log σ' = log σ ++ map LogOK (j :: js) /\
    stats σ' = stats σ /\
    at_chain (run l) None w'.
Proof.
  induction js as [|j' js IH]; intros j σ l Hch; simpl in Hch.
  - pose proof (next_node_at_chain (Printf σ (LogOK j)) l None) as Hat.
    destruct (next_node_stats (Printf σ (LogOK j)) l None) as [Hs Hl].
    cbn [length replicate wrun wstep]. rewrite Hch.
    destruct (next_node (Printf σ (LogOK j)) l None) as [σ' w'].
    exists σ', w'. simpl in *. by rewrite Hs, Hl.
  - destruct Hch as [Hj Hch].
    destruct (IH j' (Printf σ (LogOK j))
                 (set_bkf (set_tries l 0) (backoff.Reset (bkf l))) Hch)
      as (σ' & w' & Hrun & Hlog & Hst & Hat).
    exists σ', w'. split; [|split; [|split]].
    + change (replicate (S (length (j' :: js))) (RunReturn None))
        with (RunReturn None :: replicate (S (length js)) (RunReturn None)).
      cbn [wrun wstep]. rewrite Hj. unfold next_node, loop_head. exact Hrun.
    + rewrite Hlog. simpl. by rewrite <- app_assoc.
    + by rewrite Hst.
    + exact Hat.
Qed.

(** ** Counting failures *)

Lemma failure_lines_app lg1 lg2 :
  failure_lines (lg1 ++ lg2) = failure_lines lg1 + failure_lines lg2.
Proof. induction lg1 as [|ln lg1 IH]; simpl; lia. Qed.

(** What the failure counter is ahead of the failure lines of the log. *)
Lemma loop_head_log σ l next :
  stats (loop_head σ l next).1 = stats σ /\ log (loop_head σ l next).1 = log σ.
Proof. unfold loop_head. destruct next; simpl; [done|]. by destruct (run l). Qed.

Lemma wstep_failure_lines σ w i σ' w' :
  wstep σ w i = Some (σ', w') ->
  fails (stats σ') - failure_lines (log σ') = fails (stats σ) - failure_lines (log σ).
Proof.
  intros H.
  wstep_cases H; try destruct (may_retry _ _);
    apply Some_pair in H as [H _]; simpl in H; subst σ'; simpl;
    unfold fail_node;
    rewrite ?(proj1 (loop_head_log _ _ _)), ?(proj2 (loop_head_log _ _ _)),
            ?(proj1 (next_node_stats _ _ _)), ?(proj2 (next_node_stats _ _ _));
    simpl; rewrite ?failure_lines_app; simpl; lia.
Qed.

Lemma fstep_failure_lines s i s' :
  fstep s i = Some s' ->
  fails (stats (shared s')) - failure_lines (log (shared s')) =
  fails (stats (shared s)) - failure_lines (log (shared s)).
Proof.
  unfold fstep. intros H.
  assert (Hsr : forall s stream line,
    fails (stats (shared (singleRun s stream line)))
      - failure_lines (log (shared (singleRun s stream line))) =
    fails (stats (shared s)) - failure_lines (log (shared s))).
  { intros s1 stream line. unfold singleRun, after_singleRun.
    destruct (ParseJob line); [done|]. destruct stream; simpl.
    - rewrite failure_lines_app. simpl. lia.
    - destruct (close_jobQueue_frame (set_shared s1
        (stats_Increment (Printf (shared s1) (LogParseErr line e)) STATS_FAIL))
        (FWait false)) as (_ & _ & -> & _).
      simpl. rewrite failure_lines_app. simpl. lia. }
  destruct (feeder s); destruct i as [? ?|?|[?| | |]| | |]; try discriminate.
  - by destruct (_ || _)%bool; injection H as <-.
  - injection H as <-. apply Hsr.
  - injection H as <-. apply Hsr.
  - injection H as <-. by destruct (close_jobQueue_frame s (FWait false)) as (_ & _ & -> & _).
  - by injection H as <-.
  - injection H as <-. simpl. rewrite failure_lines_app. simpl. lia.
  - destruct (Done (ctx s)); [|done]. injection H as <-.
    unfold after_singleRun. destruct stream; [done|].
    by destruct (close_jobQueue_frame s (FWait false)) as (_ & _ & -> & _).
  - destruct (jobQueue_closed s); [|done]. by injection H as <-.
  - destruct (wg (shared s) =? 0); [|done]. injection H as <-.
    destruct close_after; [|done].
    by destruct (close_jobQueue_frame s FReturned) as (_ & _ & -> & _).
Qed.

Lemma sstep_failure_lines s a s' :
  sstep s a = Some s' ->
  fails (stats (shared s')) - failure_lines (log (shared s')) =
  fails (stats (shared s)) - failure_lines (log (shared s)).
Proof.
  unfold sstep. intros H. destruct (crashed s); [done|].
  destruct a as [|i inp|i|inp].
  - by injection H as <-.
  - destruct (worker_enabled s inp); [|done].
    apply worker_moves_spec in H as (w & σ' & w' & _ & Hs & ->). simpl.
    by apply wstep_failure_lines in Hs.
  - destruct (feeder s) as [| |stream job| | | |]; try done.
    destruct (jobQueue_closed s); [done|].
    destruct (worker_moves s i (Recv job)) as [s1|] eqn:Hm; [|done].
    injection H as <-. apply worker_moves_spec in Hm as (w & σ' & w' & _ & Hs & ->).
    apply wstep_failure_lines in Hs. unfold after_singleRun.
    destruct stream; simpl; [done|].
    by destruct (close_jobQueue_frame
      (add_handed (set_workers (set_shared s σ') (<[i:=w']> (workers s))) job)
      (FWait false)) as (_ & _ & -> & _).
  - by eapply fstep_failure_lines.
Qed.

(** X6: in every state a pool reaches, the failure counter has grown since
    construction by exactly the number of error lines logged for jobs (line
    114) and for lines that did not parse (line 136); the line logged for a
    failed read (line 186) counts nothing. *)
Theorem failures_counted_are_error_lines_logged ses c st lg heap s0 acts s :
  NewWorkerPool ses c st lg heap = Returns s0 ->
  srun s0 acts = Some s ->
  fails (stats (shared s)) - fails st =
    failure_lines (log (shared s)) - failure_lines lg /\
  failure_line LogReadErr = 0.
Proof.
  intros Hnew Hrun. split; [|done].
  apply NewWorkerPool_Returns in Hnew as (ses0 & _ & _ & ->).
  assert (Hinv : forall acts s1 s2, srun s1 acts = Some s2 ->
    fails (stats (shared s2)) - failure_lines (log (shared s2)) =
    fails (stats (shared s1)) - failure_lines (log (shared s1))).
  { clear. induction acts as [|a acts IH]; intros s1 s2 H; simpl in H.
    - by injection H as <-.
    - destruct (sstep s1 a) as [s3|] eqn:Hs; [|done].
      rewrite (IH _ _ H). by eapply sstep_failure_lines. }
  specialize (Hinv _ _ _ Hrun). simpl in Hinv. lia.
Qed.

(** ** The WaitGroup *)

Lemma live_count_le_length ws : live_count ws <= Z.of_nat (length ws).
Proof.
  induction ws as [|w ws IH]; simpl; [lia|]. destruct w; simpl; lia.
Qed.

(** X3: in every state a pool reaches, the WaitGroup counter is the number
    of workers that have not returned: it is never negative, never above
    the number of workers spawned, and zero exactly when every worker has
    returned. *)
Theorem waitgroup_counts_unfinished_workers ses c st lg heap s0 acts s :
  NewWorkerPool ses c st lg heap = Returns s0 ->
  srun s0 acts = Some s ->
  wg (shared s) = live_count (workers s) /\
  0 <= wg (shared s) <= Z.of_nat (Z.to_nat (NumWorkers params)) /\
  (wg (shared s) = 0 <-> Forall (fun w => w = Terminated) (workers s)).
Proof.
  intros Hnew Hrun.
  assert (Hinv : sinv s).
  { eapply srun_sinv; [|exact Hrun]. by eapply NewWorkerPool_sinv. }
  destruct Hinv as [Hwg _].
  assert (Hlen : length (workers s) = Z.to_nat (NumWorkers params)).
  { apply NewWorkerPool_Returns in Hnew as (ses0 & _ & _ & ->).
    match type of Hrun with srun ?s0 _ = _ => assert (Hinv0 : hinv s0) end.
    { intros i pc l Hi. simpl in Hi. apply lookup_replicate in Hi as [? _]. done. }
    destruct (srun_hinv _ _ _ Hinv0 Hrun) as [_ ->]. simpl. apply length_replicate. }
  split; [done|]. split.
  - rewrite Hwg, <- Hlen. split; [apply live_count_nonneg | apply live_count_le_length].
  - rewrite Hwg. split; [apply live_count_zero | apply live_count_terminated].
Qed.

(** ** Who stops a worker *)

Lemma loop_head_run σ l next :
  match (loop_head σ l next).2 with
  | Spawned => False
  | Live _ l' => run l' = run l
  | Terminated => run l = false
  end.
Proof.
  unfold loop_head. destruct next; simpl; [done|].
  by destruct (run l) eqn:Hr; simpl.
Qed.

Lemma wstep_stop_cause σ w i σ' w' :
  wstep σ w i = Some (σ', w') ->
  match w' with
  | Spawned => True
  | Live _ l' =>
      run l' = false -> i = CtxDone \/ exists pc l, w = Live pc l /\ run l = false
  | Terminated =>
      i = RecvClosed \/ i = CtxDone \/ exists pc l, w = Live pc l /\ run l = false
  end.
Proof.
  intros H.
  assert (Hnext : forall σ1 l1 next pc,
    match (next_node σ1 l1 next).2 with
    | Spawned => True
    | Live _ l' =>
        run l' = false -> i = CtxDone \/ exists pc0 l0, Live pc l1 = Live pc0 l0 /\ run l0 = false
    | Terminated =>
        i = RecvClosed \/ i = CtxDone \/
        exists pc0 l0, Live pc l1 = Live pc0 l0 /\ run l0 = false
    end).
  { intros σ1 l1 next pc. unfold next_node.
    pose proof (loop_head_run σ1 (set_bkf (set_tries l1 0) (backoff.Reset (bkf l1))) next) as Hr.
    destruct (loop_head σ1 _ next).2; simpl in *; [done| |]; eauto 6. }
  wstep_cases H; try destruct (may_retry _ _);
    apply Some_pair in H as [_ H]; simpl in H; subst w'; simpl; auto; try done.
  - pose proof (loop_head_run σ (set_tries l 0) job) as Hr.
    destruct (loop_head σ (set_tries l 0) job).2; simpl in *; [done| |]; eauto 6.
  - eauto.
  - apply (Hnext _ l _ (Executing job)).
  - apply (Hnext _ l _ (Executing job)).
  - pose proof (loop_head_run
      (stats_Increment (Printf σ (LogErr job (CleanupError err))) STATS_FAIL)
      (set_bkf (set_tries (set_run l false) 0) (backoff.Reset (bkf (set_run l false))))
      (failCommand job)) as Hr.
    unfold fail_node, next_node. destruct (loop_head _ _ (failCommand job)).2; auto.
  - eauto.
Qed.

Lemma close_jobQueue_closed s k :
  ctx (close_jobQueue s k) = ctx s /\ jobQueue_closed (close_jobQueue s k) = true.
Proof. unfold close_jobQueue. by destruct (jobQueue_closed s) eqn:E. Qed.

Lemma singleRun_ctx s stream line :
  ctx (singleRun s stream line) = ctx s /\
  handed (singleRun s stream line) = handed s /\
  (jobQueue_closed s = true -> jobQueue_closed (singleRun s stream line) = true).
Proof.
  unfold singleRun, after_singleRun. destruct (ParseJob line); [done|].
  destruct stream; simpl; [done|].
  destruct (close_jobQueue_closed (set_shared s
    (stats_Increment (Printf (shared s) (LogParseErr line e)) STATS_FAIL)) (FWait false))
    as [-> ->].
  by destruct (close_jobQueue_frame (set_shared s
    (stats_Increment (Printf (shared s) (LogParseErr line e)) STATS_FAIL)) (FWait false))
    as (_ & -> & _).
Qed.

Lemma fstep_ctx s i s' :
  fstep s i = Some s' ->
  ctx s' = ctx s /\
  (jobQueue_closed s = true -> jobQueue_closed s' = true).
Proof.
  unfold fstep. intros H.
  destruct (feeder s); destruct i as [? ?|?|[?| | |]| | |]; try discriminate.
  - by destruct (_ || _)%bool; injection H as <-.
  - injection H as <-. by destruct (singleRun_ctx s false commandLine) as (-> & _ & ?).
  - injection H as <-. by destruct (singleRun_ctx s true line) as (-> & _ & ?).
  - injection H as <-. by destruct (close_jobQueue_closed s (FWait false)) as [-> ->].
  - by injection H as <-.
  - by injection H as <-.
  - destruct (Done (ctx s)); [|done]. injection H as <-.
    unfold after_singleRun. destruct stream; [done|].
    by destruct (close_jobQueue_closed s (FWait false)) as [-> ->].
  - destruct (jobQueue_closed s) eqn:E; [|done]. injection H as <-.
    split; [done | intros _; exact E].
  - destruct (wg (shared s) =? 0); [|done]. injection H as <-.
    destruct close_after; [|done].
    by destruct (close_jobQueue_closed s FReturned) as [-> ->].
Qed.

Lemma worker_moves_stops s i inp s' :
  stops_only_when_told s ->
  (inp = RecvClosed -> jobQueue_closed s = true) ->
  (inp = CtxDone -> Done (ctx s) = true) ->
  worker_moves s i inp = Some s' ->
  stops_only_when_told s'.
Proof.
  intros Hinv Hrc Hcd H.
  apply worker_moves_spec in H as (w & σ' & w' & Hi & Hs & ->).
  apply wstep_stop_cause in Hs.
  intros k v Hk. simpl in *. destruct (decide (k = i)) as [->|Hne].
  - rewrite list_lookup_insert_eq in Hk by (by eapply lookup_lt_Some).
    injection Hk as <-. specialize (Hinv i w Hi).
    destruct w' as [|pc' l'|]; [done| |].
    + intros Hr. destruct (Hs Hr) as [E|(pc & l & -> & Hl)]; auto.
    + destruct Hs as [E|[E|(pc & l & -> & Hl)]]; auto.
  - rewrite list_lookup_insert_ne in Hk by done. specialize (Hinv k v Hk).
    destruct v; auto.
Qed.

Lemma sstep_stops s a s' :
  stops_only_when_told s -> sstep s a = Some s' -> stops_only_when_told s'.
Proof.
  intros Hinv H. unfold sstep in H. destruct (crashed s); [done|].
  destruct a as [|i inp|i|inp].
  - injection H as <-. intros k w Hk. specialize (Hinv k w Hk). simpl in *.
    destruct w; auto.
  - destruct (worker_enabled s inp) eqn:He; [|done].
    eapply worker_moves_stops; [exact Hinv| | |exact H]; by intros ->.
  - destruct (feeder s) as [| |stream job| | | |]; try done.
    destruct (jobQueue_closed s) eqn:Hc; [done|].
    destruct (worker_moves s i (Recv job)) as [s1|] eqn:Hm; [|done].
    injection H as <-.
    assert (H1 : stops_only_when_told s1)
      by (eapply worker_moves_stops; [exact Hinv| | |exact Hm]; done).
    intros k w Hk. unfold after_singleRun in *. destruct stream; simpl in *.
    + by apply (H1 k w).
    + destruct (close_jobQueue_frame (add_handed s1 job) (FWait false)) as (Hw & _).
      destruct (close_jobQueue_closed (add_handed s1 job) (FWait false)) as [Hx Hq].
      rewrite Hw in Hk. rewrite Hx, Hq. specialize (H1 k w Hk). simpl in *.
      destruct w; auto.
  - destruct (fstep_frame _ _ _ H) as [Hw _]. destruct (fstep_ctx _ _ _ H) as [Hx Hq].
    intros k w Hk. rewrite Hw in Hk. rewrite Hx. specialize (Hinv k w Hk).
    destruct w; auto. destruct Hinv; auto.
Qed.

Lemma srun_stops acts : forall s s',
  stops_only_when_told s -> srun s acts = Some s' -> stops_only_when_told s'.
Proof.
  induction acts as [|a acts IH]; intros s s' Hinv H; simpl in H.
  - by injection H as <-.
  - destruct (sstep s a) as [s1|] eqn:Hs; [|done].
    eapply IH; [|exact H]. by eapply sstep_stops.
Qed.

Lemma NewWorkerPool_stops ses c st lg heap s0 :
  NewWorkerPool ses c st lg heap = Returns s0 -> stops_only_when_told s0.
Proof.
  intros H. apply NewWorkerPool_Returns in H as (ses0 & _ & _ & ->).
  intros i w Hi. simpl in Hi. by apply lookup_replicate in Hi as [-> _].
Qed.

(** X1: in every state a pool reaches, a worker that has returned has seen
    the queue closed or the context canceled, and a worker that has cleared
    its [run] variable has seen the context canceled.  So while the queue is
    open and the context is not canceled, no worker has returned and every
    running worker will wait for a job again after its chain. *)
Theorem no_worker_stops_unless_closed_or_canceled ses c st lg heap s0 acts s :
  NewWorkerPool ses c st lg heap = Returns s0 ->
  srun s0 acts = Some s ->
  stops_only_when_told s /\
  (jobQueue_closed s = false -> Done (ctx s) = false ->
   Forall (fun w => w <> Terminated) (workers s) /\
   forall i pc l, workers s !! i = Some (Live pc l) -> run l = true).
Proof.
  intros Hnew Hrun.
  assert (Hinv : stops_only_when_told s).
  { eapply srun_stops; [|exact Hrun]. by eapply NewWorkerPool_stops. }
  split; [done|]. intros Hc Hd. split.
  - apply Forall_lookup. intros i w Hi ->. specialize (Hinv i _ Hi). simpl in Hinv.
    destruct Hinv; congruence.
  - intros i pc l Hi. specialize (Hinv i _ Hi). simpl in Hinv.
    destruct (run l); [done|]. specialize (Hinv eq_refl). congruence.
Qed.

(** ** A wait that cannot end *)

Lemma live_count_none_terminated ws :
  Forall (fun w => w <> Terminated) ws -> live_count ws = Z.of_nat (length ws).
Proof.
  induction 1 as [|w ws Hw _ IH]; simpl; [done|]. destruct w; simpl; try lia. done.
Qed.

(** X2: when [Run] has left its loop with the queue still open -- which a
    failed read does (lines 186-188) -- and the context is not canceled, it
    waits for workers none of which can return: with at least one worker,
    whatever the pool does short of a cancellation, the feeder is still
    waiting, the queue is still open and no worker has returned. *)
Theorem open_queue_wait_lasts_until_canceled ses c st lg heap s0 acts s :
  NewWorkerPool ses c st lg heap = Returns s0 ->
  srun s0 acts = Some s ->
  feeder s = FWait true ->
  Done (ctx s) = false ->
  0 < NumWorkers params ->
  forall acts' s',
    srun s acts' = Some s' ->
    Forall (fun a => ~ is_Cancel a) acts' ->
    feeder s' = FWait true /\
    jobQueue_closed s' = false /\
    Done (ctx s') = false /\
    Forall (fun w => w <> Terminated) (workers s').
Proof.
  intros Hnew Hrun Hf Hd Hn.
  assert (Hs : sinv s) by (eapply srun_sinv; [|exact Hrun]; by eapply NewWorkerPool_sinv).
  assert (Ht : stops_only_when_told s)
    by (eapply srun_stops; [|exact Hrun]; by eapply NewWorkerPool_stops).
  assert (Hl : (0 < length (workers s))%nat).
  { apply NewWorkerPool_Returns in Hnew as (ses0 & _ & _ & ->).
    match type of Hrun with srun ?s0 _ = _ => assert (Hinv0 : hinv s0) end.
    { intros i pc l Hi. simpl in Hi. apply lookup_replicate in Hi as [? _]. done. }
    destruct (srun_hinv _ _ _ Hinv0 Hrun) as [_ ->]. simpl. rewrite length_replicate. lia. }
  clear Hnew Hrun. intros acts'. revert s Hf Hd Hs Ht Hl.
  assert (Hnone : forall s, stops_only_when_told s -> jobQueue_closed s = false ->
            Done (ctx s) = false -> Forall (fun w => w <> Terminated) (workers s)).
  { intros s Ht Hc Hd. apply Forall_lookup. intros i w Hi ->.
    specialize (Ht i _ Hi). simpl in Ht. destruct Ht; congruence. }
  induction acts' as [|a acts' IH]; intros s Hf Hd Hs Ht Hl s' Hrun Hnc; simpl in Hrun.
  - injection Hrun as <-. pose proof Hs as [_ Hq]. rewrite Hf in Hq. simpl in Hq.
    repeat split; try done. by apply Hnone.
  - destruct (sstep s a) as [s1|] eqn:Hstep; [|done].
    apply Forall_cons in Hnc as [Ha Hnc].
    pose proof (sstep_sinv _ _ _ Hs Hstep) as Hs1.
    pose proof (sstep_stops _ _ _ Ht Hstep) as Ht1.
    pose proof Hs as [Hwg Hq]. rewrite Hf in Hq. simpl in Hq.
    assert (H1 : feeder s1 = FWait true /\ Done (ctx s1) = false /\
                 length (workers s1) = length (workers s)).
    { unfold sstep, crashed in Hstep. rewrite Hf in Hstep.
      destruct a as [|i inp|i|inp]; [by destruct Ha| | |].
      - destruct (worker_enabled s inp); [|done].
        apply worker_moves_spec in Hstep as (w & σ' & w' & _ & _ & ->). simpl.
        by rewrite length_insert.
      - done.
      - unfold fstep in Hstep. rewrite Hf in Hstep. destruct inp; try done.
        destruct (wg (shared s) =? 0) eqn:H0; [|done]. apply Z.eqb_eq in H0.
        rewrite Hwg, (live_count_none_terminated _ (Hnone s Ht Hq Hd)) in H0. lia. }
    destruct H1 as (Hf1 & Hd1 & Hl1).
    apply (IH s1); try done. by rewrite Hl1.
Qed.

(** ** Lines read and jobs handed over *)

Lemma parsed_jobs_app acts1 acts2 :
  parsed_jobs (acts1 ++ acts2) = parsed_jobs acts1 ++ parsed_jobs acts2.
Proof. unfold parsed_jobs. apply flat_map_app. Qed.

Lemma sstep_submitted js s a s' :
  submitted js s -> sstep s a = Some s' -> submitted (js ++ parsed a) s'.
Proof.
  unfold submitted, sstep. intros Hj H. destruct (crashed s); [done|].
  destruct a as [|i inp|i|inp].
  - injection H as <-. simpl. by rewrite app_nil_r.
  - destruct (worker_enabled s inp); [|done].
    apply worker_moves_spec in H as (w & σ' & w' & _ & _ & ->). simpl.
    by rewrite app_nil_r.
  - destruct (feeder s) as [| |stream job| | | |]; try done.
    destruct (jobQueue_closed s); [done|].
    destruct (worker_moves s i (Recv job)) as [s1|] eqn:Hm; [|done].
    injection H as <-. apply worker_moves_spec in Hm as (w & σ' & w' & _ & _ & ->).
    simpl. rewrite app_nil_r. unfold after_singleRun. destruct stream; simpl; [done|].
    destruct (close_jobQueue_frame
      (add_handed (set_workers (set_shared s σ') (<[i:=w']> (workers s))) job)
      (FWait false)) as (_ & -> & _ & [-> | ->]); simpl; auto.
  - assert (Hsr : forall stream line,
      js = handed s ->
      match feeder (singleRun s stream line) with
      | FReady | FReadOne =>
          js ++ match ParseJob line with inl job => [job] | inr _ => [] end
          = handed (singleRun s stream line)
      | FSend _ job =>
          js ++ match ParseJob line with inl job => [job] | inr _ => [] end
          = handed (singleRun s stream line) ++ [job]
      | _ =>
          js ++ match ParseJob line with inl job => [job] | inr _ => [] end
          = handed (singleRun s stream line) \/
          exists job,
            js ++ match ParseJob line with inl job => [job] | inr _ => [] end
            = handed (singleRun s stream line) ++ [job]
      end).
    { intros stream line ->. unfold singleRun, after_singleRun.
      destruct (ParseJob line) as [job|e]; simpl; [done|]. rewrite app_nil_r.
      destruct stream; simpl; [done|].
      destruct (close_jobQueue_frame (set_shared s
        (stats_Increment (Printf (shared s) (LogParseErr line e)) STATS_FAIL))
        (FWait false)) as (_ & -> & _ & [-> | ->]); simpl; auto. }
    unfold fstep in H.
    destruct (feeder s) eqn:Hf; destruct inp as [? ?|?|[?| | |]| | |];
      try discriminate; simpl parsed; rewrite ?app_nil_r.
    + destruct (_ || _)%bool; injection H as <-; simpl; auto.
    + injection H as <-. by apply Hsr.
    + injection H as <-. by apply Hsr.
    + injection H as <-.
      destruct (close_jobQueue_frame s (FWait false)) as (_ & -> & _ & [-> | ->]); auto.
    + injection H as <-. simpl. auto.
    + injection H as <-. simpl. auto.
    + destruct (Done (ctx s)); [|done]. injection H as <-.
      unfold after_singleRun. destruct stream; simpl; [eauto|].
      destruct (close_jobQueue_frame s (FWait false)) as (_ & -> & _ & [-> | ->]); eauto.
    + destruct (jobQueue_closed s); [|done]. injection H as <-. simpl. eauto.
    + destruct (wg (shared s) =? 0); [|done]. injection H as <-.
      destruct close_after; simpl; [|done].
      destruct (close_jobQueue_frame s FReturned) as (_ & -> & _ & [-> | ->]); auto.
Qed.

Lemma srun_submitted acts : forall js s s',
  submitted js s -> srun s acts = Some s' -> submitted (js ++ parsed_jobs acts) s'.
Proof.
  induction acts as [|a acts IH]; intros js s s' Hj H; simpl in H.
  - injection H as <-. unfold parsed_jobs. simpl. by rewrite app_nil_r.
  - destruct (sstep s a) as [s1|] eqn:Hs; [|done].
    change (a :: acts) with ([a] ++ acts). rewrite parsed_jobs_app, app_assoc.
    unfold parsed_jobs at 1. simpl. rewrite app_nil_r.
    eapply IH; [|exact H]. by eapply sstep_submitted.
Qed.

(** X5: the jobs that went through the queue are, in order, the jobs
    parsed out of the lines read so far ([Run]) or of the command line
    ([RunCmd]), except possibly the last one: none is skipped, reordered or
    sent twice.  All of them have gone through while the feeder reads, and
    exactly the last one is missing while the feeder is submitting it. *)
Theorem jobs_handed_over_in_reading_order ses c st lg heap s0 acts s :
  NewWorkerPool ses c st lg heap = Returns s0 ->
  srun s0 acts = Some s ->
  exists rest,
    parsed_jobs acts = handed s ++ rest /\
    (length rest <= 1)%nat /\
    (feeder s = FReadOne -> rest = []) /\
    (forall stream job, feeder s = FSend stream job -> rest = [job]).
Proof.
  intros Hnew Hrun.
  apply NewWorkerPool_Returns in Hnew as (ses0 & _ & _ & ->).
  match type of Hrun with srun ?s0 _ = _ =>
    assert (H0 : submitted [] s0) by done;
    pose proof (srun_submitted acts [] s0 s H0 Hrun) as Hs
  end.
  simpl in Hs. unfold submitted in Hs.
  destruct (feeder s) as [| |stream job|ca| | |] eqn:Hf.
  - exists []. rewrite app_nil_r. repeat split; try done. simpl. lia.
  - exists []. rewrite app_nil_r. repeat split; try done. simpl. lia.
  - exists [job]. repeat split; try done. by intros ? ? [= _ ->].
  - destruct Hs as [Hs|[job Hs]]; [exists [] | exists [job]];
      rewrite ?app_nil_r; repeat split; try done; simpl; lia.
  - destruct Hs as [Hs|[job Hs]]; [exists [] | exists [job]];
      rewrite ?app_nil_r; repeat split; try done; simpl; lia.
  - destruct Hs as [Hs|[job Hs]]; [exists [] | exists [job]];
      rewrite ?app_nil_r; repeat split; try done; simpl; lia.
  - destruct Hs as [Hs|[job Hs]]; [exists [] | exists [job]];
      rewrite ?app_nil_r; repeat split; try done; simpl; lia.
Qed.

(** ** Which jobs a worker runs *)

Lemma in_chain_step j0 j j' :
  in_chain j0 j ->
  successCommand j = Some j' \/ failCommand j = Some j' ->
  in_chain j0 j'.
Proof.
  induction 1 as [j|j j1 k Hs _ IH|j j1 k Hf _ IH]; intros Hj.
  - destruct Hj; [eapply chain_success | eapply chain_fail]; eauto using chain_here.
  - eapply chain_success; eauto.
  - eapply chain_fail; eauto.
Qed.

Lemma loop_head_node σ l next pc' l' :
  (loop_head σ l next).2 = Live pc' l' -> node_of pc' = next.
Proof.
  unfold loop_head. destruct next; simpl.
  - by intros [= <- _].
  - destruct (run l); simpl; [|done]. by intros [= <- _].
Qed.

Lemma wstep_node σ w i σ' pc' l' j' :
  wstep σ w i = Some (σ', Live pc' l') ->
  node_of pc' = Some j' ->
  i = Recv (Some j') \/
  exists pc l j,
    w = Live pc l /\ node_of pc = Some j /\
    (j' = j \/ successCommand j = Some j' \/ failCommand j = Some j').
Proof.
  intros H Hn.
  wstep_cases H; try destruct (may_retry _ _);
    apply Some_pair in H as [_ H]; simpl in H.
  1: by injection H as <- _.
  all: first
      [ injection H as <- _; simpl in Hn; injection Hn as <-;
        right; eexists _, _, _; split; [reflexivity|]; split; [reflexivity|]; auto
      | unfold fail_node, next_node in H; apply loop_head_node in H; rewrite H in Hn;
        first
          [ discriminate Hn
          | left; congruence
          | right; eexists _, _, _; split; [reflexivity|]; split; [reflexivity|]; auto ] ].
Qed.

Lemma worker_moves_submitted s i inp s' :
  runs_only_submitted s ->
  (forall j, inp <> Recv (Some j)) ->
  worker_moves s i inp = Some s' ->
  runs_only_submitted s'.
Proof.
  intros Hinv Hr H. apply worker_moves_spec in H as (w & σ' & w' & Hi & Hs & ->).
  intros k pc l j Hk Hn. simpl in *. destruct (decide (k = i)) as [->|Hne].
  - rewrite list_lookup_insert_eq in Hk by (by eapply lookup_lt_Some).
    injection Hk as ->.
    destruct (wstep_node _ _ _ _ _ _ _ Hs Hn) as [E|(pc0 & l0 & j1 & -> & Hn0 & Hj)].
    { by destruct (Hr j). }
    destruct (Hinv i pc0 l0 j1 Hi Hn0) as (j0 & Hin & Hch). exists j0. split; [done|].
    destruct Hj as [->|Hj]; [done|]. by eapply in_chain_step.
  - rewrite list_lookup_insert_ne in Hk by done. by eapply Hinv.
Qed.

Lemma sstep_runs_only_submitted s a s' :
  runs_only_submitted s -> sstep s a = Some s' -> runs_only_submitted s'.
Proof.
  intros Hinv H. unfold sstep in H. destruct (crashed s); [done|].
  destruct a as [|i inp|i|inp].
  - by injection H as <-.
  - destruct (worker_enabled s inp) eqn:He; [|done].
    eapply worker_moves_submitted; [exact Hinv| |exact H]. by intros j ->.
  - destruct (feeder s) as [| |stream job| | | |]; try done.
    destruct (jobQueue_closed s); [done|].
    destruct (worker_moves s i (Recv job)) as [s1|] eqn:Hm; [|done].
    injection H as <-. apply worker_moves_spec in Hm as (w & σ' & w' & Hi & Hs & ->).
    assert (Hgoal : runs_only_submitted
      (add_handed (set_workers (set_shared s σ') (<[i:=w']> (workers s))) job)).
    { intros k pc l j Hk Hn. simpl in *. destruct (decide (k = i)) as [->|Hne].
      - rewrite list_lookup_insert_eq in Hk by (by eapply lookup_lt_Some).
        injection Hk as ->.
        destruct (wstep_node _ _ _ _ _ _ _ Hs Hn) as [E|(pc0 & l0 & j1 & -> & Hn0 & Hj)].
        + injection E as ->. exists j. split; [|apply chain_here].
          apply elem_of_app. right. by apply list_elem_of_singleton.
        + destruct (Hinv i pc0 l0 j1 Hi Hn0) as (j0 & Hin & Hch). exists j0. split.
          * apply elem_of_app. by left.
          * destruct Hj as [->|Hj]; [done|]. by eapply in_chain_step.
      - rewrite list_lookup_insert_ne in Hk by done.
        destruct (Hinv k pc l j Hk Hn) as (j0 & Hin & Hch). exists j0. split; [|done].
        apply elem_of_app. by left. }
    unfold after_singleRun. destruct stream; [exact Hgoal|].
    intros k pc l j Hk Hn.
    destruct (close_jobQueue_frame
      (add_handed (set_workers (set_shared s σ') (<[i:=w']> (workers s))) job)
      (FWait false)) as (Hw & Hh & _).
    rewrite Hw in Hk. rewrite Hh. by eapply Hgoal.
  - pose proof (fstep_frame _ _ _ H) as [Hw _].
    assert (Hh : handed s' = handed s).
    { clear -H. unfold fstep in H.
      destruct (feeder s); destruct inp as [? ?|?|[?| | |]| | |]; try discriminate.
      - by destruct (_ || _)%bool; injection H as <-.
      - injection H as <-. by destruct (singleRun_ctx s false commandLine) as (_ & -> & _).
      - injection H as <-. by destruct (singleRun_ctx s true line) as (_ & -> & _).
      - injection H as <-. by destruct (close_jobQueue_frame s (FWait false)) as (_ & -> & _).
      - by injection H as <-.
      - by injection H as <-.
      - destruct (Done (ctx s)); [|done]. injection H as <-.
        unfold after_singleRun. destruct stream; [done|].
        by destruct (close_jobQueue_frame s (FWait false)) as (_ & -> & _).
      - destruct (jobQueue_closed s); [|done]. by injection H as <-.
      - destruct (wg (shared s) =? 0); [|done]. injection H as <-.
        destruct close_after; [|done].
        by destruct (close_jobQueue_frame s FReturned) as (_ & -> & _). }
    intros k pc l j Hk Hn. rewrite Hw in Hk. rewrite Hh. by eapply Hinv.
Qed.

(** X8: in every state a pool reaches, the node a worker is running or
    sleeping on is a job that went through the queue, or is reached from
    one along success and failure continuations: a worker never runs
    anything else. *)
Theorem workers_run_only_submitted_chains ses c st lg heap s0 acts s :
  NewWorkerPool ses c st lg heap = Returns s0 ->
  srun s0 acts = Some s ->
  forall i pc l j,
    workers s !! i = Some (Live pc l) ->
    node_of pc = Some j ->
    exists j0, Some j0 ∈ handed s /\ in_chain j0 j.
Proof.
  intros Hnew Hrun.
  apply NewWorkerPool_Returns in Hnew as (ses0 & _ & _ & ->).
  assert (Hinv : forall acts s1 s2,
    runs_only_submitted s1 -> srun s1 acts = Some s2 -> runs_only_submitted s2).
  { clear. induction acts as [|a acts IH]; intros s1 s2 Hi H; simpl in H.
    - by injection H as <-.
    - destruct (sstep s1 a) as [s3|] eqn:Hs; [|done].
      eapply IH; [|exact H]. by eapply sstep_runs_only_submitted. }
  eapply Hinv; [|exact Hrun].
  intros i pc l j Hi. simpl in Hi. by apply lookup_replicate in Hi as [? _].
Qed.

(** ** Shutting down *)

Lemma srun_app s acts1 acts2 :
  srun s (acts1 ++ acts2) =
  match srun s acts1 with
  | Some s' => srun s' acts2
  | None => None
  end.
Proof.
  revert s. induction acts1 as [|a acts1 IH]; intros s; simpl; [done|].
  destruct (sstep s a); [apply IH | done].
Qed.

Lemma insert_at_length {A : Type} (pre : list A) x y ws :
  <[length pre := y]> (pre ++ x :: ws) = pre ++ y :: ws.
Proof. rewrite insert_app_r_alt by lia. by rewrite Nat.sub_diag. Qed.

(** A worker at rest that is told to stop returns, and nothing else of the
    pool changes but the WaitGroup and the allocator. *)
Lemma retire_one s pre w ws stop :
  workers s = pre ++ w :: ws ->
  at_rest w ->
  crashed s = false ->
  worker_enabled s stop = true ->
  stop = RecvClosed \/ stop = CtxDone ->
  exists s',
    srun s (match w with
            | Spawned => [WorkerStep (length pre) Start; WorkerStep (length pre) stop]
            | Live _ _ => [WorkerStep (length pre) stop]
            | Terminated => []
            end) = Some s' /\
    workers s' = pre ++ Terminated :: ws /\
    feeder s' = feeder s /\ jobQueue_closed s' = jobQueue_closed s /\ ctx s' = ctx s.
Proof.
  intros Hw Hr Hc He Hstop.
  assert (Hidle : forall s1 l,
    workers s1 = pre ++ Live Idle l :: ws -> crashed s1 = false ->
    worker_enabled s1 stop = true ->
    exists s',
      srun s1 [WorkerStep (length pre) stop] = Some s' /\
      workers s' = pre ++ Terminated :: ws /\
      feeder s' = feeder s1 /\ jobQueue_closed s' = jobQueue_closed s1 /\ ctx s' = ctx s1).
  { intros s1 l Hw1 Hc1 He1. simpl. unfold sstep, worker_moves.
    rewrite Hc1, He1, Hw1, list_lookup_middle by done.
    destruct Hstop as [-> | ->]; simpl; eexists; (split; [reflexivity|]); simpl;
      rewrite insert_at_length; done. }
  destruct w as [|[|j|j e d] l|]; try done.
  - assert (Hs : exists s1 l,
      sstep s (WorkerStep (length pre) Start) = Some s1 /\
      workers s1 = pre ++ Live Idle l :: ws /\
      feeder s1 = feeder s /\ jobQueue_closed s1 = jobQueue_closed s /\ ctx s1 = ctx s).
    { unfold sstep, worker_moves. rewrite Hc, Hw, list_lookup_middle by done. simpl.
      eexists _, _. split; [reflexivity|]. simpl.
      rewrite insert_at_length. done. }
    destruct Hs as (s1 & l & Hs1 & Hw1 & Hf1 & Hq1 & Hx1).
    destruct (Hidle s1 l Hw1) as (s' & Hrun & Hw' & Hf' & Hq' & Hx').
    + unfold crashed in *. by rewrite Hf1.
    + destruct Hstop as [-> | ->]; simpl in *; congruence.
    + exists s'. split; [|repeat split; congruence].
      change [WorkerStep (length pre) Start; WorkerStep (length pre) stop]
        with ([WorkerStep (length pre) Start] ++ [WorkerStep (length pre) stop]).
      rewrite srun_app. simpl. rewrite Hs1. exact Hrun.
  - by apply (Hidle s l).
  - exists s. by repeat split.
Qed.

Lemma retire_all stop ws : forall s pre,
  workers s = pre ++ ws ->
  Forall at_rest ws ->
  crashed s = false ->
  worker_enabled s stop = true ->
  stop = RecvClosed \/ stop = CtxDone ->
  exists s',
    srun s (retire stop (length pre) ws) = Some s' /\
    workers s' = pre ++ replicate (length ws) Terminated /\
    feeder s' = feeder s /\ jobQueue_closed s' = jobQueue_closed s /\ ctx s' = ctx s.
Proof.
  induction ws as [|w ws IH]; intros s pre Hw Hr Hc He Hstop.
  - exists s. simpl. by repeat split.
  - apply Forall_cons in Hr as [Hr Hrs].
    destruct (retire_one s pre w ws stop Hw Hr Hc He Hstop)
      as (s1 & Hrun1 & Hw1 & Hf1 & Hq1 & Hx1).
    destruct (IH s1 (pre ++ [Terminated])) as (s' & Hrun & Hw' & Hf' & Hq' & Hx').
    + by rewrite <- app_assoc.
    + done.
    + unfold crashed in *. by rewrite Hf1.
    + destruct Hstop as [-> | ->]; simpl in *; congruence.
    + done.
    + exists s'. split; [|split; [|repeat split; congruence]].
      * cbn [retire]. rewrite srun_app.
        destruct w as [|pc l|]; rewrite Hrun1;
          rewrite length_app in Hrun; simpl in Hrun;
          by replace (S (length pre)) with (length pre + 1)%nat by lia.
      * rewrite Hw', <- app_assoc. done.
Qed.

(** X9: when the feeder waits, every worker is at rest -- not started,
    waiting for a job, or returned -- and the queue is closed or the
    context is canceled, the pool can always shut down: letting each worker
    take the stop case of its select and then the wait return is a run of
    the pool, after which the call has returned, the queue is closed and
    every worker has returned. *)
Theorem resting_pool_can_shut_down ses c st lg heap s0 acts s close_after :
  NewWorkerPool ses c st lg heap = Returns s0 ->
  srun s0 acts = Some s ->
  feeder s = FWait close_after ->
  Forall at_rest (workers s) ->
  jobQueue_closed s = true \/ Done (ctx s) = true ->
  exists s',
    srun s (retire (stop_input s) 0 (workers s) ++ [FeederStep WaitReturned]) = Some s' /\
    feeder s' = FReturned /\
    jobQueue_closed s' = true /\
    Forall (fun w => w = Terminated) (workers s').
Proof.
  intros Hnew Hrun Hf Hr Hstop.
  assert (Hs : sinv s) by (eapply srun_sinv; [|exact Hrun]; by eapply NewWorkerPool_sinv).
  destruct (retire_all (stop_input s) (workers s) s []) as (s1 & Hrun1 & Hw1 & Hf1 & Hq1 & Hx1).
  - done.
  - done.
  - unfold crashed. by rewrite Hf.
  - unfold stop_input. destruct (jobQueue_closed s) eqn:Hq; simpl; [done|].
    by destruct Hstop.
  - unfold stop_input. destruct (jobQueue_closed s); auto.
  - simpl in Hrun1, Hw1.
    assert (Hs1 : sinv s1) by (by eapply srun_sinv; [exact Hs|exact Hrun1]).
    assert (Hall : Forall (fun w => w = Terminated) (workers s1)).
    { rewrite Hw1. by apply Forall_replicate. }
    destruct Hs1 as [Hwg Hq]. rewrite Hf1, Hf in Hq.
    rewrite (live_count_terminated _ Hall) in Hwg.
    rewrite srun_app, Hrun1. simpl. unfold sstep, crashed, fstep.
    rewrite Hf1, Hf, Hwg. simpl.
    destruct close_after; simpl in Hq.
    + unfold close_jobQueue. rewrite Hq. eexists. split; [reflexivity|]. by simpl.
    + eexists. split; [reflexivity|]. by simpl.
Qed.

(** ** Counting retries *)

Lemma ratelimit_lines_app lg1 lg2 :
  ratelimit_lines (lg1 ++ lg2) = ratelimit_lines lg1 + ratelimit_lines lg2.
Proof. induction lg1 as [|ln lg1 IH]; simpl; lia. Qed.

Lemma sleepers_insert ws : forall i w w',
  ws !! i = Some w ->
  sleepers (<[i := w']> ws) = sleepers ws - asleep w + asleep w'.
Proof.
  induction ws as [|v ws IH]; intros i w w' Hi; [done|].
  destruct i as [|i]; simpl in *.
  - injection Hi as ->. lia.
  - rewrite (IH i w w' Hi). lia.
Qed.

Lemma sleepers_replicate n : sleepers (replicate n Spawned) = 0.
Proof. induction n as [|n IH]; [done|]. cbn [replicate sleepers asleep]. lia. Qed.

Lemma loop_head_asleep σ l next : asleep (loop_head σ l next).2 = 0.
Proof. unfold loop_head. destruct next; simpl; [done|]. by destruct (run l). Qed.

(** A step of a worker keeps the sleeps announced level with the retries
    counted and its own sleep, except when a cancellation ends the sleep. *)
Lemma wstep_sleeps σ w i σ' w' :
  wstep σ w i = Some (σ', w') ->
  ratelimit_lines (log σ') - retryops (stats σ') - asleep w' =
    ratelimit_lines (log σ) - retryops (stats σ) - asleep w \/
  (i = CtxDone /\
   ratelimit_lines (log σ') - retryops (stats σ') - asleep w' =
     ratelimit_lines (log σ) - retryops (stats σ) - asleep w + 1).
Proof.
  intros H.
  wstep_cases H; try destruct (may_retry _ _); try destruct (backoff.NextBackOff _);
    apply Some_pair in H as [H1 H2]; simpl in H1, H2; subst σ' w'; simpl;
    unfold fail_node, next_node;
    rewrite ?loop_head_asleep,
            ?(proj1 (loop_head_log _ _ _)), ?(proj2 (loop_head_log _ _ _));
    simpl; rewrite ?ratelimit_lines_app; simpl;
    first [left; lia | right; split; [done | lia]].
Qed.

Lemma fstep_sleeps s i s' :
  fstep s i = Some s' ->
  retryops (stats (shared s')) = retryops (stats (shared s)) /\
  ratelimit_lines (log (shared s')) = ratelimit_lines (log (shared s)).
Proof.
  unfold fstep. intros H.
  assert (Hsr : forall s stream line,
    retryops (stats (shared (singleRun s stream line))) = retryops (stats (shared s)) /\
    ratelimit_lines (log (shared (singleRun s stream line))) =
      ratelimit_lines (log (shared s))).
  { intros s1 stream line. unfold singleRun, after_singleRun.
    destruct (ParseJob line); [done|]. destruct stream; simpl.
    - rewrite ratelimit_lines_app. simpl. split; [done | lia].
    - destruct (close_jobQueue_frame (set_shared s1
        (stats_Increment (Printf (shared s1) (LogParseErr line e)) STATS_FAIL))
        (FWait false)) as (_ & _ & -> & _).
      simpl. rewrite ratelimit_lines_app. simpl. split; [done | lia]. }
  destruct (feeder s); destruct i as [? ?|?|[?| | |]| | |]; try discriminate.
  - by destruct (_ || _)%bool; injection H as <-.
  - injection H as <-. apply Hsr.
  - injection H as <-. apply Hsr.
  - injection H as <-. by destruct (close_jobQueue_frame s (FWait false)) as (_ & _ & -> & _).
  - by injection H as <-.
  - injection H as <-. simpl. rewrite ratelimit_lines_app. simpl. split; [done | lia].
  - destruct (Done (ctx s)); [|done]. injection H as <-.
    unfold after_singleRun. destruct stream; [done|].
    by destruct (close_jobQueue_frame s (FWait false)) as (_ & _ & -> & _).
  - destruct (jobQueue_closed s); [|done]. by injection H as <-.
  - destruct (wg (shared s) =? 0); [|done]. injection H as <-.
    destruct close_after; [|done].
    by destruct (close_jobQueue_frame s FReturned) as (_ & _ & -> & _).
Qed.

Lemma worker_moves_cut_short s i inp s' :
  worker_moves s i inp = Some s' ->
  ctx s' = ctx s /\
  (cut_short s' = cut_short s \/ (inp = CtxDone /\ cut_short s' = cut_short s + 1)).
Proof.
  intros H. apply worker_moves_spec in H as (w & σ' & w' & Hi & Hs & ->).
  split; [done|]. unfold cut_short. simpl. rewrite (sleepers_insert _ _ _ w' Hi).
  destruct (wstep_sleeps _ _ _ _ _ Hs) as [E|[-> E]]; [left | right; split; [done|]]; lia.
Qed.

Lemma sstep_cut_short s a s' :
  sstep s a = Some s' ->
  (Done (ctx s') = false -> Done (ctx s) = false) /\
  (cut_short s' = cut_short s \/
   (Done (ctx s') = true /\ cut_short s' = cut_short s + 1)).
Proof.
  unfold sstep. intros H. destruct (crashed s); [done|].
  destruct a as [|i inp|i|inp].
  - injection H as <-. split; [|by left]. unfold cancel. simpl.
    by destruct (Done (ctx s)).
  - destruct (worker_enabled s inp) eqn:He; [|done].
    apply worker_moves_cut_short in H as [Hx [E|[-> E]]]; rewrite Hx.
    + split; [done | by left].
    + simpl in He. split; [done | by right].
  - destruct (feeder s) as [| |stream job| | | |]; try done.
    destruct (jobQueue_closed s); [done|].
    destruct (worker_moves s i (Recv job)) as [s1|] eqn:Hm; [|done].
    injection H as <-. apply worker_moves_cut_short in Hm as [Hx [E|[? _]]]; [|done].
    assert (Hk : ctx (after_singleRun (add_handed s1 job) stream true) = ctx s1 /\
                 cut_short (after_singleRun (add_handed s1 job) stream true) = cut_short s1).
    { unfold after_singleRun, cut_short. destruct stream; simpl; [done|].
      destruct (close_jobQueue_frame (add_handed s1 job) (FWait false)) as (-> & _ & -> & _).
      by destruct (close_jobQueue_closed (add_handed s1 job) (FWait false)) as [-> _]. }
    destruct Hk as [-> ->]. rewrite Hx. split; [done | by left].
  - destruct (fstep_frame _ _ _ H) as [Hw _]. destruct (fstep_ctx _ _ _ H) as [Hx _].
    destruct (fstep_sleeps _ _ _ H) as [Hr Hl].
    rewrite Hx. split; [done|]. left. unfold cut_short. by rewrite Hw, Hr, Hl.
Qed.

(** X10: in every state a pool reaches, the retries counted (line 107)
    since construction plus the workers asleep before a retry are at most
    the sleeps announced in the log (line 104), and exactly as many while
    the context is not canceled: a retry is counted only when its sleep has
    run out, and only a cancellation ends a sleep without a count. *)
Theorem retries_counted_are_sleeps_slept ses c st lg heap s0 acts s :
  NewWorkerPool ses c st lg heap = Returns s0 ->
  srun s0 acts = Some s ->
  (retryops (stats (shared s)) - retryops st) + sleepers (workers s) <=
    ratelimit_lines (log (shared s)) - ratelimit_lines lg /\
  (Done (ctx s) = false ->
   (retryops (stats (shared s)) - retryops st) + sleepers (workers s) =
     ratelimit_lines (log (shared s)) - ratelimit_lines lg).
Proof.
  intros Hnew Hrun.
  apply NewWorkerPool_Returns in Hnew as (ses0 & _ & _ & ->).
  assert (Hinv : forall acts s1 s2, srun s1 acts = Some s2 ->
    cut_short s1 <= cut_short s2 /\
    (Done (ctx s2) = false -> cut_short s2 = cut_short s1)).
  { clear. induction acts as [|a acts IH]; intros s1 s2 H; simpl in H.
    - injection H as <-. split; [lia | done].
    - destruct (sstep s1 a) as [s3|] eqn:Hs; [|done].
      destruct (IH _ _ H) as [Hle Heq].
      assert (Hmono : Done (ctx s2) = false -> Done (ctx s3) = false).
      { clear - H. revert s3 H. induction acts as [|b acts IH]; intros s3 H; simpl in H.
        - by injection H as <-.
        - destruct (sstep s3 b) as [s4|] eqn:Hs; [|done].
          intros Hd. apply (proj1 (sstep_cut_short _ _ _ Hs)). by eapply IH. }
      destruct (sstep_cut_short _ _ _ Hs) as [_ [E|[Hd E]]].
      + split; [lia|]. intros Hd. rewrite (Heq Hd). done.
      + split; [lia|]. intros Hd2. specialize (Hmono Hd2). congruence. }
  destruct (Hinv _ _ _ Hrun) as [Hle Heq]. unfold cut_short in Hle, Heq.
  simpl in Hle, Heq. rewrite sleepers_replicate in Hle, Heq.
  split; [lia|]. intros Hd. specialize (Heq Hd). lia.
Qed.

End Properties.

(** * The theorems at the concrete pool *)

Lemma ratelimited_job_runs_budget_plus_one_witness :
  0 < Retries params /\
  tries demo.l0 = 0 /\
  Z.of_nat (length [demo.slow_down; demo.slow_down]) = Retries params /\
  exists σ' l',
    wrun demo.σ0 (Live (Executing demo.cp_job) demo.l0)
      [demo.SlowDown; TimerFired; demo.SlowDown; TimerFired; demo.SlowDown] =
      Some (σ', Live (Executing demo.cp_else) l') /\
    retryops (stats σ') = 2 /\ fails (stats σ') = 1.
Proof.
  split; [reflexivity|]. split; [reflexivity|]. split; [reflexivity|].
  destruct (ratelimited_job_runs_budget_plus_one (env := demo.env)
              demo.cp_job demo.σ0 demo.l0 [demo.slow_down; demo.slow_down] demo.slow_down)
    as (σ1 & l1 & σ' & w' & _ & _ & H3 & _ & H5 & H6 & H7).
  - reflexivity.
  - reflexivity.
  - reflexivity.
  - repeat constructor.
  - simpl in H7. destruct H7 as (l' & -> & _). exists σ', l'.
    split; [exact H3|]. simpl in H5, H6. split; lia.
Defined.

Lemma backoff_intervals_double_up_to_cap_witness :
  tries demo.l0 = 0 /\
  bkf demo.l0 = worker_bkf /\
  Z.of_nat (length [demo.slow_down]) < Retries params /\
  exists σ' l',
    wrun demo.σ0 (Live (Executing demo.ls_job) demo.l0)
      [demo.SlowDown; TimerFired; demo.SlowDown] =
      Some (σ', Live (Backoff demo.ls_job demo.slow_down (2 * Second)) l') /\
    2 * Second <= Minute.
Proof.
  split; [reflexivity|]. split; [reflexivity|]. split; [reflexivity|].
  destruct (backoff_intervals_double_up_to_cap (env := demo.env)
              demo.ls_job demo.σ0 demo.l0 [demo.slow_down] demo.slow_down)
    as (σ' & l' & H1 & _ & _ & _ & _ & _ & H7).
  - reflexivity.
  - reflexivity.
  - repeat constructor.
  - reflexivity.
  - exists σ', l'. split; [exact H1|]. unfold Minute, Second. lia.
Defined.

Lemma backoff_reset_before_next_node_witness :
  exists σ l,
    wrun demo.σ0 Spawned [Start; Recv (Some demo.cp_job)] =
      Some (σ, Live (Executing demo.cp_job) l) /\
    exists σ' l',
      wstep σ (Live (Executing demo.cp_job) l) (RunReturn None) =
        Some (σ', Live (Executing demo.cp_then) l') /\
      RunReturn None <> TimerFired /\
      fresh l'.
Proof.
  eexists _, _. split; [reflexivity|].
  eexists _, _. split; [reflexivity|]. split; [discriminate|].
  eapply (proj2 (backoff_reset_before_next_node (env := demo.env)
                   demo.σ0 [Start; Recv (Some demo.cp_job)] _ _ eq_refl)
                (RunReturn None)).
  - reflexivity.
  - discriminate.
Defined.

Lemma stream_run_closes_queue_and_joins_witness :
  NewWorkerPool (inl tt) demo.ctx_with_cancel demo.no_stats [] 0%nat =
    Returns demo.pool /\
  srun demo.pool demo.stream_to_the_end = Some demo.at_the_end /\
  feeder demo.at_the_end = FReturned /\
  jobQueue_closed demo.at_the_end = true /\
  Forall (fun w => w = Terminated) (workers demo.at_the_end).
Proof.
  split; [reflexivity|]. split; [reflexivity|]. split; [reflexivity|].
  destruct (stream_run_closes_queue_and_joins (env := demo.env)
              (inl tt) demo.ctx_with_cancel demo.no_stats [] 0%nat
              demo.pool demo.stream_to_the_end demo.at_the_end)
    as (_ & _ & _ & H).
  - reflexivity.
  - reflexivity.
  - exact (H eq_refl).
Defined.


Lemma every_worker_builds_its_own_clients_witness :
  NewWorkerPool (inl tt) demo.ctx_with_cancel demo.no_stats [] 0%nat =
    Returns demo.pool /\
  Z.of_nat (length (workers demo.pool)) = NumWorkers params /\
  exists s,
    srun demo.pool [WorkerStep 0 Start; WorkerStep 1 Start] = Some s /\
    workers s = [Live Idle demo.l0; Live Idle demo.l1] /\
    forall a, a ∈ handles (wp demo.l0) -> a ∉ handles (wp demo.l1).
Proof.
  split; [reflexivity|].
  destruct (every_worker_builds_its_own_clients (env := demo.env)
              (inl tt) demo.ctx_with_cancel demo.no_stats [] 0%nat
              demo.pool eq_refl)
    as (_ & Hn & _ & H).
  split; [apply Hn; by vm_compute|].
  eexists. split; [reflexivity|]. split; [reflexivity|].
  destruct (H [WorkerStep 0 Start; WorkerStep 1 Start] _ eq_refl)
    as (_ & _ & Hd).
  destruct (Hd 0%nat Idle demo.l0 eq_refl) as (_ & _ & Hap).
  exact (Hap 1%nat Idle demo.l1 ltac:(discriminate) eq_refl).
Defined.

Lemma no_pool_without_cancelFunc_witness :
  Value demo.ctx_without_cancel "cancelFunc" <> Some CancelFuncValue /\
  NewWorkerPool (inl tt) demo.ctx_without_cancel demo.no_stats [] 0%nat = Panics /\
  NewWorkerPool (inr demo.no_session) demo.ctx_without_cancel demo.no_stats [] 0%nat = Exits.
Proof.
  split; [discriminate|]. split.
  - exact (proj1 (proj2 (no_pool_without_cancelFunc (env := demo.env)
             (inl tt) demo.ctx_without_cancel demo.no_stats [] 0%nat
             ltac:(discriminate))) tt eq_refl).
  - reflexivity.
Defined.

(** * Where the spec's wording fails *)

(** C5, the counterexample: a worker starts and receives job 3, which has
    no failure continuation; the first attempt is rate-limited and the
    worker sleeps for a second; the context is canceled during the sleep.
    The node is counted as a failure and the worker terminates: it does not
    wait for a job again. *)
Lemma canceled_worker_does_not_return_to_idle :
  failCommand demo.ls_job = None /\
  (exists σ l σ',
     wrun demo.σ0 Spawned [Start; Recv (Some demo.ls_job); demo.SlowDown] =
       Some (σ, Live (Backoff demo.ls_job demo.slow_down Second) l) /\
     wstep σ (Live (Backoff demo.ls_job demo.slow_down Second) l) CtxDone =
       Some (σ', Terminated) /\
     fails (stats σ') = fails (stats σ) + 1) /\
  ~ resolution_leads_to_continuation_or_idle.
Proof.
  split; [reflexivity|]. split.
  - eexists _, _, _. split; [reflexivity|]. split; reflexivity.
  - intros H.
    assert (Hc : continuation_or_idle (failCommand demo.ls_job) Terminated).
    { eapply (fun σ l σ' Hrun Hstep =>
                proj2 (H demo.σ0 [Start; Recv (Some demo.ls_job); demo.SlowDown]
                         σ (Backoff demo.ls_job demo.slow_down Second) l demo.ls_job CtxDone
                         σ' Terminated Hrun eq_refl Hstep));
        reflexivity. }
    destruct Hc as [l Hl]. discriminate Hl.
Qed.

(** C10, the counterexample: the context holds nothing under "cancelFunc"
    and [session.NewSession] returns an error; construction exits through
    log.Fatal at line 45 and never reaches the type assertion of line 48. *)
Lemma construction_exits_before_the_assertion :
  Value demo.ctx_without_cancel "cancelFunc" = None /\
  NewWorkerPool (inr demo.no_session) demo.ctx_without_cancel demo.no_stats [] 0%nat
    = Exits /\
  ~ panics_without_cancelFunc.
Proof.
  split; [reflexivity|]. split; [reflexivity|].
  intros H.
  specialize (H (inr demo.no_session) demo.ctx_without_cancel demo.no_stats [] 0%nat
                ltac:(discriminate)).
  discriminate H.
Qed.

(** * More theorems at the concrete pool *)

Lemma no_worker_stops_unless_closed_or_canceled_witness :
  NewWorkerPool (inl tt) demo.ctx_with_cancel demo.no_stats [] 0%nat =
    Returns demo.pool /\
  exists s,
    srun demo.pool [WorkerStep 0 Start; WorkerStep 1 Start] = Some s /\
    jobQueue_closed s = false /\ Done (ctx s) = false /\
    Forall (fun w => w <> Terminated) (workers s).
Proof.
  split; [reflexivity|]. eexists. split; [reflexivity|].
  split; [reflexivity|]. split; [reflexivity|].
  exact (proj1 (proj2 (no_worker_stops_unless_closed_or_canceled (env := demo.env)
           (inl tt) demo.ctx_with_cancel demo.no_stats [] 0%nat demo.pool
           [WorkerStep 0 Start; WorkerStep 1 Start] _ eq_refl eq_refl)
         eq_refl eq_refl)).
Defined.

Lemma open_queue_wait_lasts_until_canceled_witness :
  NewWorkerPool (inl tt) demo.ctx_with_cancel demo.no_stats [] 0%nat =
    Returns demo.pool /\
  0 < NumWorkers params /\
  exists s s',
    srun demo.pool
      [WorkerStep 0 Start; FeederStep (CallRun "-" false); FeederStep (ReadOne ReadFailed)]
      = Some s /\
    feeder s = FWait true /\ Done (ctx s) = false /\
    srun s [WorkerStep 1 Start] = Some s' /\
    feeder s' = FWait true /\ jobQueue_closed s' = false.
Proof.
  split; [reflexivity|]. split; [reflexivity|].
  eexists _, _. split; [reflexivity|]. split; [reflexivity|]. split; [reflexivity|].
  split; [reflexivity|].
  destruct (open_queue_wait_lasts_until_canceled (env := demo.env)
              (inl tt) demo.ctx_with_cancel demo.no_stats [] 0%nat demo.pool
              [WorkerStep 0 Start; FeederStep (CallRun "-" false);
               FeederStep (ReadOne ReadFailed)]
              _ eq_refl eq_refl eq_refl eq_refl eq_refl
              [WorkerStep 1 Start] _ eq_refl)
    as (Hf & Hq & _).
  - repeat constructor. simpl. tauto.
  - by split.
Defined.

Lemma waitgroup_counts_unfinished_workers_witness :
  NewWorkerPool (inl tt) demo.ctx_with_cancel demo.no_stats [] 0%nat =
    Returns demo.pool /\
  srun demo.pool demo.stream_to_the_end = Some demo.at_the_end /\
  wg (shared demo.at_the_end) = 0 /\
  Forall (fun w => w = Terminated) (workers demo.at_the_end).
Proof.
  split; [reflexivity|]. split; [reflexivity|]. split; [reflexivity|].
  destruct (waitgroup_counts_unfinished_workers (env := demo.env)
              (inl tt) demo.ctx_with_cancel demo.no_stats [] 0%nat demo.pool
              demo.stream_to_the_end demo.at_the_end eq_refl eq_refl)
    as (_ & _ & H).
  exact (proj1 H eq_refl).
Defined.

Lemma success_chain_logs_in_order_witness :
  follows_success demo.cp_job [demo.cp_then] /\
  exists σ' l',
    wrun demo.σ0 (Live (Executing demo.cp_job) demo.l0)
      [RunReturn None; RunReturn None] = Some (σ', Live Idle l') /\
    log σ' = [LogOK demo.cp_job; LogOK demo.cp_then].
Proof.
  split; [by split|].
  destruct (success_chain_logs_in_order (env := demo.env) [demo.cp_then]
              demo.cp_job demo.σ0 demo.l0)
    as (σ' & w' & Hrun & Hlog & _ & Hat).
  - by split.
  - simpl in Hat. destruct Hat as (l' & -> & _). by exists σ', l'.
Defined.

Lemma jobs_handed_over_in_reading_order_witness :
  NewWorkerPool (inl tt) demo.ctx_with_cancel demo.no_stats [] 0%nat =
    Returns demo.pool /\
  srun demo.pool demo.stream_canceled_in_submit = Some demo.blocked_in_submit /\
  parsed_jobs demo.stream_canceled_in_submit =
    handed demo.blocked_in_submit ++ [Some demo.ls_job].
Proof.
  split; [reflexivity|]. split; [reflexivity|].
  destruct (jobs_handed_over_in_reading_order (env := demo.env)
              (inl tt) demo.ctx_with_cancel demo.no_stats [] 0%nat demo.pool
              demo.stream_canceled_in_submit demo.blocked_in_submit eq_refl eq_refl)
    as (rest & Hp & _ & _ & Hs).
  by rewrite Hp, (Hs true (Some demo.ls_job) eq_refl).
Defined.

Lemma failures_counted_are_error_lines_logged_witness :
  NewWorkerPool (inl tt) demo.ctx_with_cancel demo.no_stats [] 0%nat =
    Returns demo.pool /\
  exists s,
    srun demo.pool
      [FeederStep (CallRun "-" false); FeederStep (ReadOne (ReadLine "rm"));
       FeederStep (ReadOne ReadFailed)] = Some s /\
    log (shared s) = [LogParseErr "rm" "unknown command"; LogReadErr] /\
    fails (stats (shared s)) = 1.
Proof.
  split; [reflexivity|]. eexists. split; [reflexivity|]. split; [reflexivity|].
  destruct (failures_counted_are_error_lines_logged (env := demo.env)
              (inl tt) demo.ctx_with_cancel demo.no_stats [] 0%nat demo.pool
              [FeederStep (CallRun "-" false); FeederStep (ReadOne (ReadLine "rm"));
               FeederStep (ReadOne ReadFailed)] _ eq_refl eq_refl)
    as [H _].
  simpl in H. simpl. lia.
Defined.

Lemma attempts_stay_within_budget_witness :
  exists σ l,
    wrun demo.σ0 Spawned
      [Start; Recv (Some demo.ls_job); demo.SlowDown; TimerFired; demo.SlowDown] =
      Some (σ, Live (Backoff demo.ls_job demo.slow_down (2 * Second)) l) /\
    1 <= tries l <= Retries params.
Proof.
  eexists _, _. split; [reflexivity|].
  destruct (attempts_stay_within_budget (env := demo.env) demo.σ0
              [Start; Recv (Some demo.ls_job); demo.SlowDown; TimerFired; demo.SlowDown]
              _ _ _ eq_refl)
    as [[_ Hle] Hb].
  split; [exact (Hb _ _ _ eq_refl) | exact Hle].
Defined.

Lemma workers_run_only_submitted_chains_witness :
  NewWorkerPool (inl tt) demo.ctx_with_cancel demo.no_stats [] 0%nat =
    Returns demo.pool /\
  srun demo.pool demo.stream_canceled_in_submit = Some demo.blocked_in_submit /\
  workers demo.blocked_in_submit !! 1%nat = Some (Live (Executing demo.ls_job) demo.l1) /\
  exists j0, Some j0 ∈ handed demo.blocked_in_submit /\ in_chain j0 demo.ls_job.
Proof.
  split; [reflexivity|]. split; [reflexivity|]. split; [reflexivity|].
  exact (workers_run_only_submitted_chains (env := demo.env)
           (inl tt) demo.ctx_with_cancel demo.no_stats [] 0%nat demo.pool
           demo.stream_canceled_in_submit demo.blocked_in_submit eq_refl eq_refl
           1%nat (Executing demo.ls_job) demo.l1 demo.ls_job eq_refl eq_refl).
Defined.

Lemma resting_pool_can_shut_down_witness :
  NewWorkerPool (inl tt) demo.ctx_with_cancel demo.no_stats [] 0%nat =
    Returns demo.pool /\
  exists s',
    srun demo.pool
      [WorkerStep 0 Start; FeederStep (CallRun "-" false); FeederStep (ReadOne ReadEOF);
       WorkerStep 0 RecvClosed; WorkerStep 1 Start; WorkerStep 1 RecvClosed;
       FeederStep WaitReturned] = Some s' /\
    feeder s' = FReturned /\
    Forall (fun w => w = Terminated) (workers s').
Proof.
  split; [reflexivity|].
  destruct (resting_pool_can_shut_down (env := demo.env)
              (inl tt) demo.ctx_with_cancel demo.no_stats [] 0%nat demo.pool
              [WorkerStep 0 Start; FeederStep (CallRun "-" false);
               FeederStep (ReadOne ReadEOF)]
              _ false eq_refl eq_refl eq_refl)
    as (s' & Hrun & Hf & _ & Hall).
  - repeat constructor.
  - by left.
  - exists s'. split; [exact Hrun | by split].
Defined.

Lemma retries_counted_are_sleeps_slept_witness :
  NewWorkerPool (inl tt) demo.ctx_with_cancel demo.no_stats [] 0%nat =
    Returns demo.pool /\
  exists s,
    srun demo.pool
      [WorkerStep 0 Start; FeederStep (CallRun "-" false);
       FeederStep (ReadOne (ReadLine "ls")); Handoff 0;
       WorkerStep 0 demo.SlowDown; WorkerStep 0 TimerFired;
       WorkerStep 0 demo.SlowDown] = Some s /\
    Done (ctx s) = false /\
    retryops (stats (shared s)) = 1 /\
    sleepers (workers s) = 1 /\
    ratelimit_lines (log (shared s)) = 2.
Proof.
  split; [reflexivity|].
  eexists. split; [vm_compute; reflexivity|].
  split; [reflexivity|]. split; [reflexivity|]. split; [reflexivity|].
  match goal with
  | |- ratelimit_lines (log (shared ?s)) = _ =>
      pose proof (retries_counted_are_sleeps_slept (env := demo.env)
        (inl tt) demo.ctx_with_cancel demo.no_stats [] 0%nat demo.pool
        [WorkerStep 0 Start; FeederStep (CallRun "-" false);
         FeederStep (ReadOne (ReadLine "ls")); Handoff 0;
         WorkerStep 0 demo.SlowDown; WorkerStep 0 TimerFired;
         WorkerStep 0 demo.SlowDown] s eq_refl) as H
  end.
  destruct H as [_ H]; [vm_compute; reflexivity|].
  specialize (H eq_refl). simpl in H. simpl. lia.
Defined.
